(** * Chord-DHT peer: a shallow embedding of the overlay core

    The peer program keeps three node descriptors ([self], [successor],
    [predecessor]), a map from stored file names to their keys and a
    directory of blobs.  Identifiers live on a ring of capacity 127 and are
    obtained with FNV-1a (32 bit).  This file embeds the identifier
    arithmetic, the request handlers and the routing function of the peer,
    and proves properties of them. *)

From Stdlib Require Import ZArith Lia Bool Ascii String DecimalString DecimalPos.
From stdpp Require Import base option list gmap strings.

Local Open Scope Z_scope.

(** ** Machine integers *)

Module GoInt.

(** Go's [int] on the 64-bit targets: two's complement, wrapping. *)
Definition min_int : Z := - 2 ^ 63.
Definition max_int : Z := 2 ^ 63 - 1.

Definition wrap (z : Z) : Z := (z + 2 ^ 63) mod 2 ^ 64 - 2 ^ 63.

Definition in_range (z : Z) : Prop := min_int <= z <= max_int.

(** [uint32] arithmetic used by the hasher. *)
Definition wrap32 (z : Z) : Z := z mod 2 ^ 32.

End GoInt.

(** ** Identifier space *)

(** [type node struct { Address string; ID int }] *)
Record node : Type := mkNode { Address : string; ID : Z }.

(** [newNode()]: the unset slot. *)
Definition newNode : node := {| Address := EmptyString; ID := -1 |}.

(** [var ringCapacity uint32 = 127] *)
Definition ringCapacity : Z := 127.

(** [between(low, n, high)]: the source comment reads
    "Checks whether low < n < high on the ring". *)
Definition between (low n high : Z) : bool :=
  if low =? high then true
  else
    let perimeter := ringCapacity in
    let high' := if high <? low then GoInt.wrap (high + perimeter) else high in
    let n' :=
      if high <? low
      then (if n <? low then GoInt.wrap (n + perimeter) else n)
      else n in
    (low <? n') && (n' <? high').

Module Fnv.

(** hash/fnv, the 32-bit FNV-1a variant returned by [fnv.New32a()]. *)
Definition offset32 : Z := 2166136261.
Definition prime32 : Z := 16777619.

Definition byte_val (c : ascii) : Z := Z.of_N (N_of_ascii c).

(** [Write]: for every byte, xor it into the accumulator and multiply. *)
Fixpoint Write (h : Z) (data : string) : Z :=
  match data with
  | EmptyString => h
  | String c rest =>
      Write (GoInt.wrap32 (Z.lxor h (byte_val c) * prime32)) rest
  end.

Definition Sum32 (h : Z) : Z := h.

Definition Reset (h : Z) : Z := offset32.

Definition New32a : Z := offset32.

End Fnv.

(** [hsh] run on an explicit accumulator: the source writes the input into
    the package-level [hasher], reads the digest, and resets the hasher.
    The result is the id together with the accumulator left behind. *)
Definition hsh_from (hasher : Z) (input : string) : Z * Z :=
  let hasher1 := Fnv.Write hasher input in
  let digest := Fnv.Sum32 hasher1 in
  let hasher2 := Fnv.Reset hasher1 in
  (digest mod ringCapacity, hasher2).

(** Every call leaves the hasher reset, and the hasher starts as
    [fnv.New32a()], so sequential calls always start from the offset basis. *)
Definition hsh (input : string) : Z := fst (hsh_from Fnv.New32a input).

(** ** The parts of Go's [strings], [strconv], [fmt] and [bufio] the peer uses *)

Module Go.

Definition nl_char : ascii := ascii_of_nat 10.
Definition nl : string := String nl_char EmptyString.
Definition sp_char : ascii := ascii_of_nat 32.

(** The [asciiSpace] table of package [strings]: tab, line feed, vertical
    tab, form feed, carriage return, space. *)
Definition isSpace (c : ascii) : bool :=
  let n := nat_of_ascii c in
  ((9 <=? n)%nat && (n <=? 13)%nat) || (n =? 32)%nat.

Fixpoint TrimLeft (s : string) : string :=
  match s with
  | EmptyString => EmptyString
  | String c rest => if isSpace c then TrimLeft rest else s
  end.

Fixpoint TrimRight (s : string) : string :=
  match s with
  | EmptyString => EmptyString
  | String c rest =>
      match TrimRight rest with
      | EmptyString => if isSpace c then EmptyString else String c EmptyString
      | rest' => String c rest'
      end
  end.

(** [strings.TrimSpace] on its byte-wise path: leading and trailing ASCII
    white space is removed.  (The library switches to a Unicode-aware scan
    when the first or last byte it meets is not ASCII; the request lines of
    the protocol are ASCII, and bytes above 127 are kept here.) *)
Definition TrimSpace (s : string) : string := TrimRight (TrimLeft s).

(** [strings.Split(s, " ")]: the fields between single spaces; never empty. *)
Fixpoint Split (s : string) : list string :=
  match s with
  | EmptyString => [EmptyString]
  | String c rest =>
      if Ascii.eqb c sp_char then EmptyString :: Split rest
      else match Split rest with
           | tok :: toks => String c tok :: toks
           | [] => [String c EmptyString]
           end
  end.

(** [strings.HasPrefix(s, p)] *)
Definition HasPrefix (s p : string) : bool := String.prefix p s.

(** [fmt.Sprintf("%d", z)] *)
Definition Itoa (z : Z) : string := NilZero.string_of_int (Z.to_int z).

Definition digit_val (c : ascii) : option Z :=
  let n := nat_of_ascii c in
  if ((48 <=? n)%nat && (n <=? 57)%nat) then Some (Z.of_nat n - 48) else None.

Fixpoint digits_val (acc : Z) (s : string) : option Z :=
  match s with
  | EmptyString => Some acc
  | String c rest =>
      match digit_val c with
      | Some d => digits_val (acc * 10 + d) rest
      | None => None
      end
  end.

(** [strconv.Atoi]: the value and whether [err == nil].  A syntax error
    yields 0; a value outside [int] yields the nearest bound (with
    [ErrRange]). *)
Definition Atoi (s : string) : Z * bool :=
  let '(neg, body) :=
    match s with
    | String c rest =>
        if Ascii.eqb c "-" then (true, rest)
        else if Ascii.eqb c "+" then (false, rest)
        else (false, s)
    | EmptyString => (false, s)
    end in
  match body with
  | EmptyString => (0, false)
  | _ =>
      match digits_val 0 body with
      | None => (0, false)
      | Some un =>
          if negb neg && (2 ^ 63 <=? un) then (GoInt.max_int, false)
          else if neg && (2 ^ 63 <? un) then (GoInt.min_int, false)
          else (if neg then - un else un, true)
      end
  end.

(** [bufio.Reader.ReadString('\n')] on the bytes a stream still delivers:
    the line up to and including the first line feed, the bytes left in the
    stream, and whether [err == nil].  Without a line feed everything read
    is returned together with the error. *)
Fixpoint ReadString (stream : string) : string * string * bool :=
  match stream with
  | EmptyString => (EmptyString, EmptyString, false)
  | String c rest =>
      if Ascii.eqb c nl_char then (String c EmptyString, rest, true)
      else let '(line, rest', ok) := ReadString rest in
           (String c line, rest', ok)
  end.

(** Whether byte [c] occurs in [s]. *)
Fixpoint contains (c : ascii) (s : string) : bool :=
  match s with
  | EmptyString => false
  | String c' rest => Ascii.eqb c' c || contains c rest
  end.

(** Decimal digits, and strings made of them. *)
Definition isDigit (c : ascii) : bool :=
  let n := nat_of_ascii c in (48 <=? n)%nat && (n <=? 57)%nat.

Fixpoint allDigits (s : string) : bool :=
  match s with
  | EmptyString => true
  | String c rest => isDigit c && allDigits rest
  end.

(** Strings free of ASCII white space. *)
Fixpoint noSpace (s : string) : bool :=
  match s with
  | EmptyString => true
  | String c rest => negb (isSpace c) && noSpace rest
  end.

(** A token as the protocol writes it between spaces: not empty and free
    of white space. *)
Definition isToken (s : string) : bool :=
  negb (String.eqb s EmptyString) && noSpace s.

(** [s[:n]] and [s[n:]] for [0 <= n <= len(s)]. *)
Definition take (n : nat) (s : string) : string := String.substring 0 n s.
Definition drop (n : nat) (s : string) : string :=
  String.substring n (String.length s - n) s.

End Go.

(** ** Peer state and the world around it *)

(** The package-level variables of the peer, together with the peer's
    directory of blobs (keyed by file name: [filePath] puts every file
    directly into the directory named after [self.ID]). *)
Record peer : Type := mkPeer {
  self : node;
  successor : node;
  predecessor : node;
  storedFiles : gmap string Z;
  blobs : gmap string string
}.

(** What a handler does to the outside, in order. *)
Inductive event : Type :=
  | ConnWrite (data : string)          (* conn.Write on the accepted connection *)
  | ConnCopy (data : string)           (* io.Copy(conn, srcFile) on it *)
  | ConnClose                          (* conn.Close() on it *)
  | PeerWrite (addr data : string)     (* conn.Write on a dialled connection *)
  | PeerCopy (addr data : string)      (* io.Copy(conn, srcFile) on a dialled one *)
  | Stdout (line : string).            (* fmt.Println *)

(** The surroundings of a peer: which addresses accept a connection, what a
    remote end sends back once a request has been written to it, which
    paths [os.Create] accepts, and the order in which [range] walks a map
    (Go leaves that order open; any enumeration of the map is allowed). *)
Class Environment (E : Type) : Type := {
  connect : E -> string -> bool;
  exchange : E -> string -> string -> string * E;
  creatable : E -> string -> bool;
  range_order : E -> gmap string Z -> list (string * Z);
  range_order_perm : forall e (m : gmap string Z), range_order e m ≡ₚ map_to_list m
}.

(** [log.Fatalln] ends the process; so does an index out of range. *)
Inductive crash : Type := Fatal | Panic.

Inductive result (A : Type) : Type :=
  | Ok (a : A)
  | Crashed (c : crash).
Arguments Ok {A} a.
Arguments Crashed {A} c.

Record machine (E : Type) : Type := mkMachine {
  m_peer : peer;
  m_env : E;
  m_trace : list event
}.
Arguments mkMachine {E} _ _ _.
Arguments m_peer {E} _.
Arguments m_env {E} _.
Arguments m_trace {E} _.

(** Handlers are state transformers that may crash. *)
Definition M (E A : Type) : Type := machine E -> result A * machine E.

#[global] Instance M_ret {E} : MRet (M E) := fun A a m => (Ok a, m).

#[global] Instance M_bind {E} : MBind (M E) := fun A B f c m =>
  match c m with
  | (Ok a, m') => f a m'
  | (Crashed c, m') => (Crashed c, m')
  end.

Section Peer.

Context {E : Type} `{Environment E}.

Definition getPeer : M E peer := fun m => (Ok (m_peer m), m).

Definition getEnv : M E E := fun m => (Ok (m_env m), m).

Definition modifyPeer (f : peer -> peer) : M E unit :=
  fun m => (Ok tt, mkMachine (f (m_peer m)) (m_env m) (m_trace m)).

Definition emit (ev : event) : M E unit :=
  fun m => (Ok tt, mkMachine (m_peer m) (m_env m) (m_trace m ++ [ev])).

Definition fatal {A} : M E A := fun m => (Crashed Fatal, m).

Definition panic {A} : M E A := fun m => (Crashed Panic, m).

(** [tokens[i]] *)
Definition index (tokens : list string) (i : nat) : M E string :=
  match tokens !! i with
  | Some tok => mret tok
  | None => panic
  end.

Definition set_successor (n : node) (p : peer) : peer :=
  mkPeer (self p) n (predecessor p) (storedFiles p) (blobs p).

Definition set_predecessor (n : node) (p : peer) : peer :=
  mkPeer (self p) (successor p) n (storedFiles p) (blobs p).

Definition set_storedFiles (f : gmap string Z) (p : peer) : peer :=
  mkPeer (self p) (successor p) (predecessor p) f (blobs p).

Definition set_blobs (b : gmap string string) (p : peer) : peer :=
  mkPeer (self p) (successor p) (predecessor p) (storedFiles p) b.

(** Both neighbor slots unset, everything else as in [p]. *)
Definition cleared (p : peer) : peer :=
  set_predecessor newNode (set_successor newNode p).

(** [extractServerResponse] *)
Definition extractServerResponse (resp : string) : string * string :=
  let resp := Go.TrimSpace resp in
  if Go.HasPrefix resp "OK" then
    ("OK"%string, if (2 <? String.length resp)%nat then Go.drop 3 resp else EmptyString)
  else if Go.HasPrefix resp "ERR" then
    ("ERR"%string, if (3 <? String.length resp)%nat then Go.drop 4 resp else EmptyString)
  else (EmptyString, EmptyString).

(** [connectToPeer]: the dialled connection is named by the trimmed
    address; a failed dial is fatal. *)
Definition connectToPeer (address : string) : M E string :=
  let address := Go.TrimSpace address in
  fun m => if connect (m_env m) address then (Ok address, m) else (Crashed Fatal, m).

(** Writing a request to a dialled connection; the bytes the remote end
    sends back afterwards are returned for the reads that follow. *)
Definition peerWrite (conn data : string) : M E string :=
  fun m =>
    let '(reply, e') := exchange (m_env m) conn data in
    (Ok reply, mkMachine (m_peer m) e' (m_trace m ++ [PeerWrite conn data])).

(** [fmt.Sprintf("STORE %s %d\n", fileName, fileSize)] *)
Definition storeRequest (fileName : string) (fileSize : Z) : string :=
  ("STORE " ++ fileName ++ " " ++ Go.Itoa fileSize ++ Go.nl)%string.

(** [storeFile] *)
Definition storeFile (fileName peerAddr : string) : M E unit :=
  conn ← connectToPeer peerAddr;
  p ← getPeer;
  match blobs p !! fileName with
  | None => fatal
  | Some data =>
      let fileSize := Z.of_nat (String.length data) in
      reply ← peerWrite conn (storeRequest fileName fileSize);
      let '(serverResponse, _, _) := Go.ReadString reply in
      let '(respType, respMsg) := extractServerResponse serverResponse in
      if negb (String.eqb respType "OK") then
        emit (Stdout (respType ++ " " ++ respMsg ++ Go.nl))
      else emit (PeerCopy conn data)
  end.

(** [sendUpdateRequest] *)
Definition sendUpdateRequest (newSuccAddr newPredAddr peerAddr : string) : M E unit :=
  conn ← connectToPeer peerAddr;
  _ ← peerWrite conn ("UPDATE " ++ newSuccAddr ++ " " ++ newPredAddr ++ Go.nl);
  mret tt.

(** [sendSuccessorRequest] *)
Definition sendSuccessorRequest (id : Z) (peerAddr : string) : M E string :=
  conn ← connectToPeer peerAddr;
  reply ← peerWrite conn ("SUCC " ++ Go.Itoa id ++ Go.nl);
  let '(answer, _, ok) := Go.ReadString reply in
  if ok then mret answer else fatal.

(** [sendJoinRequest] *)
Definition sendJoinRequest (newNodeAddress address : string) : M E (string * string) :=
  conn ← connectToPeer address;
  reply ← peerWrite conn ("JOIN " ++ newNodeAddress ++ Go.nl);
  let '(answer, _, ok) := Go.ReadString reply in
  if ok then
    let tokens := Go.Split (Go.TrimSpace answer) in
    t0 ← index tokens 0;
    t1 ← index tokens 1;
    mret (t0, t1)
  else fatal.

(** [findSuccessor] *)
Definition findSuccessor (id : Z) : M E string :=
  p ← getPeer;
  if (ID (predecessor p) =? -1) && (ID (successor p) =? -1) then
    mret (Address (self p))
  else if between (ID (predecessor p)) id (ID (self p)) || (id =? ID (self p)) then
    mret (Address (self p))
  else if between (ID (self p)) id (ID (successor p)) || (id =? ID (successor p)) then
    mret (Address (successor p))
  else sendSuccessorRequest id (Address (successor p)).

(** The first loop of [moveFilesToNewNode]: the names to hand over. *)
Fixpoint collectTransfers (newNodeID selfID : Z) (entries : list (string * Z)) : list string :=
  match entries with
  | [] => []
  | (fileName, fileKey) :: rest =>
      if between newNodeID fileKey selfID then collectTransfers newNodeID selfID rest
      else fileName :: collectTransfers newNodeID selfID rest
  end.

(** Its second loop: store each file at the new peer, then remove the blob
    ([os.Remove]) and the map entry ([delete]). *)
Fixpoint transferFiles (toTransfer : list string) (newNodeAddr : string) : M E unit :=
  match toTransfer with
  | [] => mret tt
  | fileName :: rest =>
      storeFile fileName newNodeAddr;;
      modifyPeer (fun p => set_blobs (delete fileName (blobs p)) p);;
      modifyPeer (fun p => set_storedFiles (delete fileName (storedFiles p)) p);;
      transferFiles rest newNodeAddr
  end.

(** [moveFilesToNewNode] *)
Definition moveFilesToNewNode (newNodeAddr : string) (newNodeID : Z) : M E unit :=
  p ← getPeer;
  e ← getEnv;
  let toTransfer :=
    collectTransfers newNodeID (ID (self p)) (range_order e (storedFiles p)) in
  transferFiles toTransfer newNodeAddr.

(** [handleRetrieveRequest] (writes to the accepted connection are taken to
    succeed) *)
Definition handleRetrieveRequest (request : string) : M E unit :=
  let tokens := Go.Split request in
  fileName ← index tokens 1;
  p ← getPeer;
  match storedFiles p !! fileName with
  | None => emit (ConnWrite ("ERR File does not exist." ++ Go.nl))
  | Some _ =>
      match blobs p !! fileName with
      | None => emit (ConnWrite ("ERR File does not exist." ++ Go.nl))
      | Some data =>
          emit (ConnWrite ("OK " ++ Go.Itoa (Z.of_nat (String.length data)) ++ Go.nl));;
          emit (ConnCopy data);;
          emit (ConnWrite ("OK" ++ Go.nl))
      end
  end.

(** [handleStoreRequest]; [input] is what the connection's reader still
    delivers after the request line, up to its end or to the read error. *)
Definition handleStoreRequest (request input : string) : M E unit :=
  let tokens := Go.Split request in
  fileName ← index tokens 1;
  sizeToken ← index tokens 2;
  let fileSize := fst (Go.Atoi sizeToken) in
  e ← getEnv;
  if negb (creatable e fileName) then
    emit (ConnWrite ("ERR Could not store file." ++ Go.nl))
  else
    modifyPeer (fun p => set_blobs (<[fileName := EmptyString]> (blobs p)) p);;
    emit (ConnWrite ("OK" ++ Go.nl));;
    (* io.CopyN(dstFile, reader, fileSize) *)
    if Z.of_nat (String.length input) <? fileSize then
      modifyPeer (fun p => set_blobs (<[fileName := input]> (blobs p)) p);;
      emit (ConnWrite ("ERR Could not copy file." ++ Go.nl))
    else
      modifyPeer (fun p =>
        set_blobs (<[fileName := Go.take (Z.to_nat fileSize) input]> (blobs p)) p);;
      modifyPeer (fun p =>
        set_storedFiles (<[fileName := hsh fileName]> (storedFiles p)) p);;
      emit (ConnWrite ("OK" ++ Go.nl)).

(** One slot of [handleUpdateRequest]. *)
Definition updateSlot (setter : node -> peer -> peer) (newAddr : string) (p : peer) : peer :=
  if negb (String.eqb newAddr "KEEP") then
    if String.eqb newAddr (Address (self p)) then
      set_predecessor newNode (set_successor newNode p)
    else setter (mkNode newAddr (hsh newAddr)) p
  else p.

(** [handleUpdateRequest] *)
Definition handleUpdateRequest (request : string) : M E unit :=
  let tokens := Go.Split request in
  newSuccAddr ← index tokens 1;
  newPredAddr ← index tokens 2;
  modifyPeer (updateSlot set_successor newSuccAddr);;
  modifyPeer (updateSlot set_predecessor newPredAddr).

(** [handleJoinRequest] *)
Definition handleJoinRequest (request : string) : M E unit :=
  let tokens := Go.Split request in
  newNodeAddr ← index tokens 1;
  let newNodeID := hsh newNodeAddr in
  p ← getPeer;
  if ID (self p) =? newNodeID then emit ConnClose
  else if (ID (successor p) =? -1) && (ID (predecessor p) =? -1) then
    moveFilesToNewNode newNodeAddr newNodeID;;
    emit (ConnWrite (Address (self p) ++ " " ++ Address (self p) ++ Go.nl));;
    modifyPeer (set_successor (mkNode newNodeAddr newNodeID));;
    modifyPeer (set_predecessor (mkNode newNodeAddr newNodeID))
  else
    newNodeSuccessorAddr ← findSuccessor newNodeID;
    if String.eqb newNodeSuccessorAddr (Address (self p)) then
      emit (ConnWrite (Address (self p) ++ " " ++ Address (predecessor p) ++ Go.nl));;
      sendUpdateRequest newNodeAddr "KEEP" (Address (predecessor p));;
      moveFilesToNewNode newNodeAddr newNodeID;;
      modifyPeer (set_predecessor (mkNode newNodeAddr newNodeID))
    else
      '(newNodeSucc, newNodePred) ← sendJoinRequest newNodeAddr newNodeSuccessorAddr;
      emit (ConnWrite (newNodeSucc ++ " " ++ newNodePred ++ Go.nl)).

(** [handleSuccessorRequest] *)
Definition handleSuccessorRequest (request : string) : M E unit :=
  let tokens := Go.Split request in
  idToken ← index tokens 1;
  let '(id, ok) := Go.Atoi idToken in
  if ok then
    answer ← findSuccessor id;
    emit (ConnWrite (answer ++ Go.nl))
  else fatal.

(** [handleRequest]: [input] is everything the accepted connection
    delivers. *)
Definition handleRequest (input : string) : M E unit :=
  let '(request, rest, _) := Go.ReadString input in
  let request := Go.TrimSpace request in
  if Go.HasPrefix request "JOIN" then handleJoinRequest request
  else if Go.HasPrefix request "SUCC" then handleSuccessorRequest request
  else if Go.HasPrefix request "UPDATE" then handleUpdateRequest request
  else if Go.HasPrefix request "STORE" then handleStoreRequest request rest
  else if Go.HasPrefix request "RETRIEVE" then handleRetrieveRequest request
  else mret tt.

(** [joinRing] *)
Definition joinRing (initiatorAddress : string) : M E unit :=
  p ← getPeer;
  '(successorAddr, predecessorAddr) ← sendJoinRequest (Address (self p)) initiatorAddress;
  modifyPeer (set_successor (mkNode successorAddr (hsh successorAddr)));;
  modifyPeer (set_predecessor (mkNode predecessorAddr (hsh predecessorAddr))).

(** The loop of [leaveRing] over the stored files. *)
Fixpoint storeFiles (fileNames : list string) (peerAddr : string) : M E unit :=
  match fileNames with
  | [] => mret tt
  | fileName :: rest => storeFile fileName peerAddr;; storeFiles rest peerAddr
  end.

(** [leaveRing]; [os.RemoveAll] of the peer's directory empties the blob
    store. *)
Definition leaveRing : M E unit :=
  p ← getPeer;
  if (ID (successor p) =? -1) || (ID (predecessor p) =? -1) then mret tt
  else
    sendUpdateRequest "KEEP" (Address (predecessor p)) (Address (successor p));;
    sendUpdateRequest (Address (successor p)) "KEEP" (Address (predecessor p));;
    e ← getEnv;
    storeFiles (range_order e (storedFiles p)).*1 (Address (successor p));;
    modifyPeer (set_blobs ∅);;
    modifyPeer (set_successor newNode);;
    modifyPeer (set_predecessor newNode).

(** [m'] has the trace of [m] followed by further events. *)
Definition extends (m m' : machine E) : Prop :=
  exists tr, m_trace m' = m_trace m ++ tr.


(** Whether the first line of a reply counts as OK for [storeFile]. *)
Definition accepted (reply : string) : Prop :=
  fst (extractServerResponse (fst (fst (Go.ReadString reply)))) = "OK"%string.

End Peer.

(** The requests written to dialled connections, in order. *)
Fixpoint peerWrites (tr : list event) : list (string * string) :=
  match tr with
  | [] => []
  | PeerWrite addr data :: rest => (addr, data) :: peerWrites rest
  | _ :: rest => peerWrites rest
  end.

(** The file bytes streamed to dialled connections, in order. *)
Fixpoint peerCopies (tr : list event) : list (string * string) :=
  match tr with
  | [] => []
  | PeerCopy addr data :: rest => (addr, data) :: peerCopies rest
  | _ :: rest => peerCopies rest
  end.

(** A neighbor slot is either unset or holds an address with its hash. *)
Definition slotOk (n : node) : Prop := n = newNode \/ ID n = hsh (Address n).

(** Every registered file is registered under the hash of its name. *)
Definition keysHashed (files : gmap string Z) : Prop :=
  forall name k, files !! name = Some k -> k = hsh name.

Definition peerOk (p : peer) : Prop :=
  slotOk (successor p) /\ slotOk (predecessor p) /\ keysHashed (storedFiles p).

(** A map with the given keys deleted one after the other. *)
Definition deleteAll {V} (names : list string) (mp : gmap string V) : gmap string V :=
  foldl (fun acc name => delete name acc) mp names.

(** ** A ring of peers answering one another *)

(** The bytes a handler has written to the accepted connection. *)
Fixpoint replyBytes (tr : list event) : string :=
  match tr with
  | [] => EmptyString
  | ConnWrite data :: rest => data ++ replyBytes rest
  | ConnCopy data :: rest => data ++ replyBytes rest
  | _ :: rest => replyBytes rest
  end.

(** A file name [os.Create] accepts inside the peer's directory: not empty
    and without a path separator. *)
Definition plainName (s : string) : bool :=
  negb (String.eqb s EmptyString) && negb (Go.contains "/" s).

(** A ring is given by the state of the peer listening at each address.  A
    request written to an address is served by that peer's
    [handleRequest], whose own requests are served by the ring in turn;
    [fuel] bounds the depth of that nesting, and a peer out of fuel sends
    nothing back.  The map is walked in the order of [map_to_list]. *)
Fixpoint ringEnv (fuel : nat) : Environment (gmap string peer) :=
  {| connect := fun w addr => bool_decide (is_Some (w !! addr));
     exchange := fun w addr request =>
       match fuel with
       | O => (EmptyString, w)
       | S fuel' =>
           match w !! addr with
           | None => (EmptyString, w)
           | Some p =>
               let '(_, m') :=
                 @handleRequest _ (ringEnv fuel') (request) (mkMachine p w []) in
               (replyBytes (m_trace m'), <[addr := m_peer m']> (m_env m'))
           end
       end;
     creatable := fun _ name => plainName name;
     range_order := fun _ m => map_to_list m;
     range_order_perm := fun _ m => reflexivity (map_to_list m) |}.

(** Surroundings in which every address accepts a connection and answers
    every request with the line OK. *)
Definition acceptingEnv : Environment unit :=
  {| connect := fun _ _ => true;
     exchange := fun e _ _ => (("OK" ++ Go.nl)%string, e);
     creatable := fun _ name => plainName name;
     range_order := fun _ m => map_to_list m;
     range_order_perm := fun _ m => reflexivity (map_to_list m) |}.

Module Demo.

(** Three peers on the loopback interface; their ids are 23, 53 and 83. *)
Definition addrA : string := "127.0.0.1:8001".
Definition addrC : string := "127.0.0.1:8002".
Definition addrB : string := "127.0.0.1:8003".

Definition nodeOf (addr : string) : node := mkNode addr (hsh addr).

Definition peerA : peer := mkPeer (nodeOf addrA) (nodeOf addrC) (nodeOf addrB) ∅ ∅.
Definition peerC : peer := mkPeer (nodeOf addrC) (nodeOf addrB) (nodeOf addrA) ∅ ∅.
Definition peerB : peer := mkPeer (nodeOf addrB) (nodeOf addrA) (nodeOf addrC) ∅ ∅.

Definition ring : gmap string peer :=
  <[addrA := peerA]> (<[addrC := peerC]> (<[addrB := peerB]> ∅)).

(** A peer that is alone. *)
Definition lonePeer (files : gmap string Z) (bs : gmap string string) : peer :=
  mkPeer (nodeOf addrA) newNode newNode files bs.

(** Two stored files, with keys 59 and 44. *)
Definition files : gmap string Z :=
  <["hi" := hsh "hi"]> (<["main.go" := hsh "main.go"]> ∅).

Definition fileBlobs : gmap string string :=
  <["hi" := "hello"%string]> (<["main.go" := "package main"%string]> ∅).

(** A newcomer whose id, 30, lies between the ids of [peerA] and [peerC]. *)
Definition addrN : string := "127.0.0.1:8005".

(** The lone peer holding the two files, amid accepting surroundings. *)
Definition loneHolder : machine unit := mkMachine (lonePeer files fileBlobs) tt [].

(** Peers of the ring at the start of a handler. *)
Definition atA : machine (gmap string peer) := mkMachine peerA ring [].
Definition atC : machine (gmap string peer) := mkMachine peerC ring [].
Definition alone : machine (gmap string peer) := mkMachine (lonePeer ∅ ∅) ∅ [].
Definition aloneWithFile : machine (gmap string peer) :=
  mkMachine (lonePeer (<["hi" := hsh "hi"]> ∅) (<["hi" := "hello"%string]> ∅)) ∅ [].

End Demo.

(** ** Notions used by the further properties *)

(** The peer after a STORE that went through. *)
Definition stored (fileName data : string) (p : peer) : peer :=
  set_storedFiles (<[fileName := hsh fileName]> (storedFiles p))
    (set_blobs (<[fileName := data]> (blobs p)) p).

(** The STORE line for a file of the blob store. *)
Definition storeLine (conn : string) (bs : gmap string string) (fileName : string)
    : list (string * string) :=
  match bs !! fileName with
  | Some data => [(conn, storeRequest fileName (Z.of_nat (String.length data)))]
  | None => []
  end.

(** Whether a peer takes a key for its own by the test of [findSuccessor]. *)
Definition ownsKey (p : peer) (id : Z) : bool :=
  between (ID (predecessor p)) id (ID (self p)) || (id =? ID (self p)).

(** A ring in which every peer listens at its own address, addresses are
    tokens hashed onto the ring, and every successor slot names a peer of
    the ring, with another id, whose predecessor slot points back. *)
Definition wellLinked (w : gmap string peer) : Prop :=
  forall a p, w !! a = Some p ->
    Address (self p) = a /\
    Go.isToken a = true /\
    0 <= ID (self p) < ringCapacity /\
    ID (self p) <> ID (successor p) /\
    exists s, w !! Address (successor p) = Some s /\
              self s = successor p /\ predecessor s = self p.

(** Clockwise distance from a peer to a key. *)
Definition clockwise (p : peer) (id : Z) : Z := (id - ID (self p)) mod ringCapacity.

Section PeerPredicates.

Context {E : Type}.

(** Computations that leave the peer alone, whatever their outcome. *)
Definition keepsPeer {A} (c : M E A) : Prop :=
  forall m, m_peer (snd (c m)) = m_peer m.

(** Computations that keep [self], keep the neighbor slots unset or hashed,
    and keep every registered key hashed. *)
Definition keepsOk {A} (c : M E A) : Prop :=
  forall m, peerOk (m_peer m) ->
    peerOk (m_peer (snd (c m))) /\ self (m_peer (snd (c m))) = self (m_peer m).

End PeerPredicates.

(** Surroundings in which every address accepts a connection and answers
    every request with an ERR line. *)
Definition refusingEnv : Environment unit :=
  {| connect := fun _ _ => true;
     exchange := fun e _ _ => (("ERR busy" ++ Go.nl)%string, e);
     creatable := fun _ name => plainName name;
     range_order := fun _ m => map_to_list m;
     range_order_perm := fun _ m => reflexivity (map_to_list m) |}.

Module Scenario.

(** The peer of [Demo] with id 53, holding the two files, at the start of a
    handler amid accepting surroundings. *)
Definition holderC : machine unit :=
  mkMachine (mkPeer (Demo.nodeOf Demo.addrC) (Demo.nodeOf Demo.addrB)
               (Demo.nodeOf Demo.addrA) Demo.files Demo.fileBlobs) tt [].

(** One half of a ring of two peers, holding the two files. *)
Definition pairA : machine unit :=
  mkMachine (mkPeer (Demo.nodeOf Demo.addrA) (Demo.nodeOf Demo.addrC)
               (Demo.nodeOf Demo.addrC) Demo.files Demo.fileBlobs) tt [].

(** A newcomer next to the ring of [Demo], with id 30. *)
Definition newcomer : machine (gmap string peer) :=
  mkMachine (mkPeer (Demo.nodeOf Demo.addrN) newNode newNode ∅ ∅) Demo.ring [].

(** A newcomer whose address hashes to 23, the id of the peer listening at
    [Demo.addrA]. *)
Definition addrTwin : string := "127.0.0.1:8062".

Definition twin : machine (gmap string peer) :=
  mkMachine (mkPeer (Demo.nodeOf addrTwin) newNode newNode ∅ ∅) Demo.ring [].

End Scenario.

(** * Properties *)

(** ** Machine integers and the ring predicate *)

Lemma wrap_small z : GoInt.in_range z -> GoInt.wrap z = z.
Proof.
  unfold GoInt.in_range, GoInt.min_int, GoInt.max_int, GoInt.wrap. intros Hz.
  rewrite Z.mod_small; lia.
Qed.

Lemma wrap32_bounds z : 0 <= GoInt.wrap32 z < 2 ^ 32.
Proof. unfold GoInt.wrap32. apply Z.mod_pos_bound. lia. Qed.

(** On ids of the ring the additions of [between] do not wrap, and the
    predicate is the strict clockwise order. *)
Lemma between_on_ring low n high :
  0 <= low < ringCapacity -> 0 <= n < ringCapacity -> 0 <= high < ringCapacity ->
  between low n high =
    if low =? high then true
    else if high <? low then (low <? n) || (n <? high)
    else (low <? n) && (n <? high).
Proof.
  unfold ringCapacity. intros Hl Hn Hh. unfold between, ringCapacity.
  destruct (Z.eqb_spec low high) as [?|Hne]; [reflexivity|].
  destruct (Z.ltb_spec high low) as [Hhl|Hhl]; [|reflexivity].
  rewrite (wrap_small (high + 127)), (wrap_small (n + 127))
    by (unfold GoInt.in_range, GoInt.min_int, GoInt.max_int; lia).
  destruct (Z.ltb_spec n low), (Z.ltb_spec low n), (Z.ltb_spec n high);
    simpl; repeat match goal with
    | |- context [?a <? ?b] => destruct (Z.ltb_spec a b)
    end; simpl; try reflexivity; lia.
Qed.

Example between_inside : between 10 73 80 = true.
Proof. reflexivity. Qed.

Example between_wraps : between 100 5 20 = true /\ between 100 50 20 = false.
Proof. split; reflexivity. Qed.

Example between_excludes_ends : between 10 10 80 = false /\ between 10 80 80 = false.
Proof. split; reflexivity. Qed.

(** C3, as stated, fails: with [low = 3] and [high = 5], both on the ring,
    [between(3, 3, 5)] is false. *)
Lemma between_low_low_counterexample :
  0 <= 3 < ringCapacity /\ 0 <= 5 < ringCapacity /\ between 3 3 5 = false.
Proof. unfold ringCapacity. repeat split; lia. Qed.

(** C3 (amended): for every [low] and [high], [between(low, low, high)]
    returns true exactly when [low == high]; the lower end of a proper
    interval is excluded. *)
Theorem between_low_low (low high : Z) :
  between low low high = (low =? high).
Proof.
  unfold between.
  destruct (Z.eqb_spec low high) as [?|Hne]; [reflexivity|].
  rewrite Z.ltb_irrefl.
  destruct (high <? low); rewrite Z.ltb_irrefl; reflexivity.
Qed.

(** The upper end is excluded as well: a key equal to [high] is not between
    [low] and [high] unless the two ends coincide. *)
Lemma between_high_high (low high : Z) :
  between low high high = (low =? high).
Proof.
  unfold between.
  destruct (Z.eqb_spec low high) as [?|Hne]; [reflexivity|].
  destruct (Z.ltb_spec high low) as [Hhl|Hhl];
    rewrite Z.ltb_irrefl; apply andb_false_r.
Qed.

(** C8: [between] is invariant under rotating its three arguments by the
    same amount around the ring. *)
Theorem between_rotation (low n high d : Z) :
  0 <= low < ringCapacity -> 0 <= n < ringCapacity ->
  0 <= high < ringCapacity -> 0 <= d < ringCapacity ->
  between low n high =
  between ((low + d) mod ringCapacity) ((n + d) mod ringCapacity)
          ((high + d) mod ringCapacity).
Proof.
  intros Hl Hn Hh Hd.
  assert (Hl' := Z.mod_pos_bound (low + d) ringCapacity eq_refl).
  assert (Hn' := Z.mod_pos_bound (n + d) ringCapacity eq_refl).
  assert (Hh' := Z.mod_pos_bound (high + d) ringCapacity eq_refl).
  rewrite !between_on_ring by assumption.
  unfold ringCapacity in *.
  assert (Hrot : forall x, 0 <= x < 127 ->
            (x + d) mod 127 = x + d \/ (x + d) mod 127 = x + d - 127).
  { intros x Hx. destruct (Z_lt_ge_dec (x + d) 127).
    - left. apply Z.mod_small. lia.
    - right. symmetry. apply (Z.mod_unique _ _ 1); lia. }
  destruct (Hrot low Hl) as [El|El], (Hrot n Hn) as [En|En],
    (Hrot high Hh) as [Eh|Eh]; rewrite El, En, Eh in *;
    repeat match goal with
    | |- context [?a =? ?b] => destruct (Z.eqb_spec a b)
    | |- context [?a <? ?b] => destruct (Z.ltb_spec a b)
    end; simpl; try reflexivity; lia.
Qed.

Lemma between_rotation_witness :
  (0 <= 100 < ringCapacity /\ 0 <= 120 < ringCapacity /\
   0 <= 10 < ringCapacity /\ 0 <= 20 < ringCapacity) /\
  between 100 120 10 = between ((100 + 20) mod ringCapacity)
    ((120 + 20) mod ringCapacity) ((10 + 20) mod ringCapacity).
Proof.
  split; [unfold ringCapacity; lia|].
  apply (between_rotation 100 120 10 20); unfold ringCapacity; lia.
Defined.

(** ** The hash *)

Lemma hsh_from_resets h s : snd (hsh_from h s) = Fnv.New32a.
Proof. reflexivity. Qed.

Lemma hsh_from_range h s : 0 <= fst (hsh_from h s) < ringCapacity.
Proof. unfold hsh_from. simpl. apply Z.mod_pos_bound. reflexivity. Qed.

Lemma Write_bounds s : forall h, 0 <= h < 2 ^ 32 -> 0 <= Fnv.Write h s < 2 ^ 32.
Proof.
  induction s as [|c s IH]; intros h Hh; simpl; [assumption|].
  apply IH, wrap32_bounds.
Qed.

Example hsh_empty : hsh EmptyString = 2166136261 mod 127.
Proof. reflexivity. Qed.

Example fnv_a : Fnv.Write Fnv.New32a "a" = 3826002220.
Proof. vm_compute. reflexivity. Qed.

Example fnv_foobar : Fnv.Write Fnv.New32a "foobar" = 3214735720.
Proof. vm_compute. reflexivity. Qed.

(** C9: [hsh] always lands in [0, 127); it never yields the id [-1] that
    [newNode] gives to an unset slot, so the test [ID == -1] is false on
    every node whose id was computed by [hsh]. *)
Theorem hsh_never_unset (s : string) :
  (0 <= hsh s < 127) /\
  hsh s <> -1 /\
  hsh s <> ID newNode /\
  (ID (mkNode s (hsh s)) =? -1) = false /\
  (forall p : peer,
     successor p = mkNode s (hsh s) \/ predecessor p = mkNode s (hsh s) ->
     (ID (predecessor p) =? -1) && (ID (successor p) =? -1) = false) /\
  (forall hasher, 0 <= fst (hsh_from hasher s) < 127).
Proof.
  assert (Hr : forall hasher, 0 <= fst (hsh_from hasher s) < 127)
    by (intros hasher; apply hsh_from_range).
  assert (H0 : 0 <= hsh s < 127) by apply Hr.
  assert (Hne : (hsh s =? -1) = false) by (apply Z.eqb_neq; lia).
  repeat split; try apply Hr; simpl; try lia; try assumption.
  intros p [Hp|Hp]; rewrite Hp; simpl; rewrite Hne.
  - apply andb_false_r.
  - reflexivity.
Qed.

Lemma hsh_never_unset_witness :
  successor Demo.peerA = mkNode Demo.addrC (hsh Demo.addrC) /\
  (ID (predecessor Demo.peerA) =? -1) && (ID (successor Demo.peerA) =? -1) = false.
Proof.
  split; [reflexivity|].
  apply (hsh_never_unset Demo.addrC). left. reflexivity.
Defined.

(** ** Strings *)

Lemma append_assoc (s1 s2 s3 : string) :
  ((s1 ++ s2) ++ s3 = s1 ++ (s2 ++ s3))%string.
Proof.
  induction s1 as [|c s1 IH]; [reflexivity|].
  change (String c ((s1 ++ s2) ++ s3) = String c (s1 ++ (s2 ++ s3)))%string.
  f_equal. exact IH.
Qed.

Lemma contains_app c (s1 s2 : string) :
  Go.contains c (s1 ++ s2) = Go.contains c s1 || Go.contains c s2.
Proof.
  induction s1 as [|a s1 IH]; [reflexivity|].
  change (Go.contains c (String a (s1 ++ s2)) =
          Go.contains c (String a s1) || Go.contains c s2).
  simpl. rewrite IH. apply orb_assoc.
Qed.

(** A line without a line feed, followed by one, is read back whole. *)
Lemma ReadString_app_nl (line rest : string) :
  Go.contains Go.nl_char line = false ->
  Go.ReadString (line ++ Go.nl ++ rest) = ((line ++ Go.nl)%string, rest, true).
Proof.
  induction line as [|c line IH]; intros Hline.
  - reflexivity.
  - change (Go.ReadString (String c (line ++ Go.nl ++ rest)) =
            (String c (line ++ Go.nl), rest, true)).
    simpl in Hline. apply orb_false_elim in Hline as [Hc Hline].
    simpl. rewrite Hc. rewrite (IH Hline). reflexivity.
Qed.

(** Tokens produced by [Split] hold no space. *)
Lemma Split_no_space (s tok : string) :
  tok ∈ Go.Split s -> Go.contains Go.sp_char tok = false.
Proof.
  revert tok. induction s as [|c s IH]; intros tok; simpl.
  - intros ->%list_elem_of_singleton. reflexivity.
  - destruct (Ascii.eqb c Go.sp_char) eqn:Hc.
    + intros [->|Hin]%elem_of_cons; [reflexivity|]. apply IH, Hin.
    + destruct (Go.Split s) as [|tok0 toks] eqn:Hsp.
      * intros ->%list_elem_of_singleton. simpl. rewrite Hc. reflexivity.
      * intros [->|Hin]%elem_of_cons.
        -- simpl. rewrite Hc. apply IH. left.
        -- apply IH. right. assumption.
Qed.

(** A space-free prefix followed by a space is the first token. *)
Lemma Split_app_space (tok rest : string) :
  Go.contains Go.sp_char tok = false ->
  Go.Split (tok ++ String Go.sp_char rest) = tok :: Go.Split rest.
Proof.
  induction tok as [|c tok IH]; intros Htok.
  - reflexivity.
  - change (Go.Split (String c (tok ++ String Go.sp_char rest)) =
            String c tok :: Go.Split rest).
    simpl in Htok. apply orb_false_elim in Htok as [Hc Htok].
    simpl. rewrite Hc. rewrite (IH Htok). reflexivity.
Qed.

(** Trailing white space after a byte that is not white space is all that
    [TrimRight] removes. *)
Lemma TrimRight_app_nl (s : string) (c : ascii) :
  Go.isSpace c = false ->
  Go.TrimRight (s ++ String c Go.nl) = (s ++ String c EmptyString)%string.
Proof.
  intros Hc. induction s as [|a s IH].
  - change (Go.TrimRight (String c Go.nl) = String c EmptyString).
    simpl. rewrite Hc. reflexivity.
  - change (Go.TrimRight (String a (s ++ String c Go.nl)) =
            String a (s ++ String c EmptyString)).
    simpl. rewrite IH. destruct s; reflexivity.
Qed.

(** ** Running handlers *)

Section PeerFacts.

Context {E : Type} `{Environment E}.

(** Unfolding the plumbing of [M]. *)
Ltac run :=
  unfold mbind, mret, M_bind, M_ret, getPeer, getEnv, modifyPeer, emit,
    fatal, panic; simpl.

Lemma append_nil_r (s : string) : (s ++ EmptyString)%string = s.
Proof.
  induction s as [|c s IH]; [reflexivity|].
  change (String c (s ++ EmptyString) = String c s). f_equal. exact IH.
Qed.

Lemma replyBytes_app (tr1 tr2 : list event) :
  replyBytes (tr1 ++ tr2) = (replyBytes tr1 ++ replyBytes tr2)%string.
Proof.
  induction tr1 as [|ev tr1 IH]; [reflexivity|].
  destruct ev; simpl; rewrite ?IH, ?append_assoc; reflexivity.
Qed.

Lemma index_Some (tokens : list string) i tok (m : machine E) :
  tokens !! i = Some tok -> index tokens i m = (Ok tok, m).
Proof. intros Htok. unfold index. rewrite Htok. reflexivity. Qed.

(** C7: a JOIN whose address hashes to the receiver's own id only closes
    the connection: nothing is written back, and the peer (neighbor slots,
    stored files, blobs) is as before. *)
Theorem join_self_collision (request newAddr : string) (m : machine E) :
  Go.Split request !! 1%nat = Some newAddr ->
  hsh newAddr = ID (self (m_peer m)) ->
  handleJoinRequest request m =
    (Ok tt, mkMachine (m_peer m) (m_env m) (m_trace m ++ [ConnClose])) /\
  replyBytes (m_trace (snd (handleJoinRequest request m))) = replyBytes (m_trace m).
Proof.
  intros Htok Hid.
  assert (Hrun : handleJoinRequest request m =
    (Ok tt, mkMachine (m_peer m) (m_env m) (m_trace m ++ [ConnClose]))).
  { unfold handleJoinRequest. run.
    rewrite (index_Some _ _ _ _ Htok).
    rewrite Hid, Z.eqb_refl. reflexivity. }
  split; [exact Hrun|]. rewrite Hrun. simpl.
  rewrite replyBytes_app. simpl. apply append_nil_r.
Qed.

Lemma updateSlot_self setter a p :
  (forall n q, self (setter n q) = self q) ->
  self (updateSlot setter a p) = self p.
Proof.
  intros Hs. unfold updateSlot.
  destruct (negb (a =? "KEEP")%string); [|reflexivity].
  destruct (a =? Address (self p))%string; [reflexivity|apply Hs].
Qed.

Lemma updateSlot_keep setter p : updateSlot setter "KEEP" p = p.
Proof. reflexivity. Qed.

Lemma updateSlot_clear setter a p :
  a <> "KEEP"%string -> a = Address (self p) -> updateSlot setter a p = cleared p.
Proof.
  intros Hk Hs. unfold updateSlot.
  apply String.eqb_neq in Hk. rewrite Hk. simpl.
  apply String.eqb_eq in Hs. rewrite Hs. reflexivity.
Qed.

Lemma updateSlot_set setter a p :
  a <> "KEEP"%string -> a <> Address (self p) ->
  updateSlot setter a p = setter (mkNode a (hsh a)) p.
Proof.
  intros Hk Hs. unfold updateSlot.
  apply String.eqb_neq in Hk. rewrite Hk. simpl.
  apply String.eqb_neq in Hs. rewrite Hs. reflexivity.
Qed.

(** C4 (amended): the handler treats the successor token and then the
    predecessor token; at its step a KEEP token changes nothing, a token
    equal to [self.Address] clears both slots, any other token sets its own
    slot to [(addr, hsh(addr))].  With one token KEEP the other alone
    decides the outcome, so clearing gives the same state whichever slot
    carries the own address; a predecessor token equal to [self.Address]
    clears both slots whatever the successor token is.  Nothing is written
    to the connection. *)
Theorem update_request (request a b : string) (m : machine E) :
  Go.Split request !! 1%nat = Some a ->
  Go.Split request !! 2%nat = Some b ->
  let p := m_peer m in
  let p' := updateSlot set_predecessor b (updateSlot set_successor a p) in
  handleUpdateRequest request m = (Ok tt, mkMachine p' (m_env m) (m_trace m)) /\
  (a = "KEEP"%string -> b = "KEEP"%string -> p' = p) /\
  (a = "KEEP"%string -> b <> "KEEP"%string -> b <> Address (self p) ->
     p' = set_predecessor (mkNode b (hsh b)) p) /\
  (b = "KEEP"%string -> a <> "KEEP"%string -> a <> Address (self p) ->
     p' = set_successor (mkNode a (hsh a)) p) /\
  (a <> "KEEP"%string -> a <> Address (self p) ->
   b <> "KEEP"%string -> b <> Address (self p) ->
     p' = set_predecessor (mkNode b (hsh b)) (set_successor (mkNode a (hsh a)) p)) /\
  (a = Address (self p) -> a <> "KEEP"%string -> b = "KEEP"%string -> p' = cleared p) /\
  (b = Address (self p) -> b <> "KEEP"%string -> p' = cleared p).
Proof.
  intros Ha Hb p p'. split.
  { unfold handleUpdateRequest. run.
    rewrite (index_Some _ _ _ _ Ha). rewrite (index_Some _ _ _ _ Hb).
    reflexivity. }
  subst p'. repeat split.
  - intros -> ->. reflexivity.
  - intros -> Hk Hs. rewrite updateSlot_keep. apply updateSlot_set; assumption.
  - intros -> Hk Hs. rewrite updateSlot_keep. apply updateSlot_set; assumption.
  - intros Hka Hsa Hkb Hsb. rewrite (updateSlot_set _ a) by assumption.
    apply updateSlot_set; assumption.
  - intros Hs Hk ->. rewrite updateSlot_keep. apply updateSlot_clear; auto.
  - intros Hs Hk. rewrite updateSlot_clear; auto.
    + unfold cleared, set_predecessor, set_successor. simpl.
      rewrite (updateSlot_self set_successor) by reflexivity.
      unfold updateSlot.
      destruct (negb (a =? "KEEP")%string); [|reflexivity].
      destruct (a =? Address (self p))%string; reflexivity.
    + rewrite (updateSlot_self set_successor) by reflexivity. assumption.
Qed.

(** C6 (amended): when the connection delivers fewer bytes than the
    declared size, the handler answers OK to the request line and then
    [ERR Could not copy file.]; [storedFiles] and the neighbor slots are as
    before, so no entry is added; the bytes received before the error stay
    in the blob store under the file name. *)
Theorem store_copy_error (request input fileName sizeToken : string) (m : machine E) :
  Go.Split request !! 1%nat = Some fileName ->
  Go.Split request !! 2%nat = Some sizeToken ->
  creatable (m_env m) fileName = true ->
  Z.of_nat (String.length input) < fst (Go.Atoi sizeToken) ->
  let p := m_peer m in
  handleStoreRequest request input m =
    (Ok tt,
     mkMachine (set_blobs (<[fileName := input]> (blobs p)) p) (m_env m)
       (m_trace m ++ [ConnWrite ("OK" ++ Go.nl);
                      ConnWrite ("ERR Could not copy file." ++ Go.nl)])) /\
  storedFiles (set_blobs (<[fileName := input]> (blobs p)) p) = storedFiles p /\
  blobs (set_blobs (<[fileName := input]> (blobs p)) p) !! fileName = Some input.
Proof.
  intros Hname Hsize Hcreate Hshort p. split; [|split].
  - unfold handleStoreRequest. run.
    rewrite (index_Some _ _ _ _ Hname). rewrite (index_Some _ _ _ _ Hsize).
    rewrite Hcreate. simpl.
    apply Z.ltb_lt in Hshort. rewrite Hshort. simpl.
    unfold set_blobs. simpl. rewrite insert_insert_eq.
    rewrite <- app_assoc. reflexivity.
  - reflexivity.
  - simpl. apply lookup_insert_eq.
Qed.

(** *** Routing *)

Lemma ReadString_line stream line rest :
  Go.ReadString stream = (line, rest, true) ->
  exists body, line = (body ++ Go.nl)%string /\
               Go.contains Go.nl_char body = false /\
               stream = (line ++ rest)%string.
Proof.
  revert line rest. induction stream as [|c stream IH]; intros line rest; simpl.
  - discriminate.
  - destruct (Ascii.eqb_spec c Go.nl_char) as [->|Hc].
    + intros [= <- <-]. exists EmptyString. repeat split.
    + destruct (Go.ReadString stream) as [[line' rest'] ok] eqn:Hrs.
      intros [= <- <- ->].
      destruct (IH _ _ eq_refl) as (body & -> & Hbody & ->).
      exists (String c body). simpl. repeat split.
      apply Ascii.eqb_neq in Hc. rewrite Hc. assumption.
Qed.

Lemma sendSuccessorRequest_run id peerAddr reply e' answer rest (m : machine E) :
  let conn := Go.TrimSpace peerAddr in
  let request := ("SUCC " ++ Go.Itoa id ++ Go.nl)%string in
  connect (m_env m) conn = true ->
  exchange (m_env m) conn request = (reply, e') ->
  Go.ReadString reply = (answer, rest, true) ->
  sendSuccessorRequest id peerAddr m =
    (Ok answer, mkMachine (m_peer m) e' (m_trace m ++ [PeerWrite conn request])).
Proof.
  intros conn request Hconn Hex Hread.
  unfold sendSuccessorRequest, connectToPeer, peerWrite. run.
  fold conn. rewrite Hconn. simpl. fold request. rewrite Hex. simpl.
  rewrite Hread. reflexivity.
Qed.

Lemma sendSuccessorRequest_Ok id peerAddr answer (m m' : machine E) :
  sendSuccessorRequest id peerAddr m = (Ok answer, m') ->
  exists body, answer = (body ++ Go.nl)%string /\
               Go.contains Go.nl_char body = false.
Proof.
  unfold sendSuccessorRequest, connectToPeer, peerWrite. run.
  destruct (connect _ _); [simpl|discriminate].
  destruct (exchange _ _ _) as [reply e']. simpl.
  destruct (Go.ReadString reply) as [[line rest] ok] eqn:Hread.
  destruct ok; [|discriminate].
  intros [= <- <-].
  destruct (ReadString_line _ _ _ Hread) as (body & Hb & Hn & _). eauto.
Qed.

Lemma findSuccessor_eq (id : Z) (m : machine E) :
  let p := m_peer m in
  findSuccessor id m =
    if (ID (predecessor p) =? -1) && (ID (successor p) =? -1)
    then (Ok (Address (self p)), m)
    else if between (ID (predecessor p)) id (ID (self p)) || (id =? ID (self p))
    then (Ok (Address (self p)), m)
    else if between (ID (self p)) id (ID (successor p)) || (id =? ID (successor p))
    then (Ok (Address (successor p)), m)
    else sendSuccessorRequest id (Address (successor p)) m.
Proof.
  intros p. unfold findSuccessor. run. fold p.
  repeat match goal with |- context [if ?b then _ else _] => destruct b end;
    reflexivity.
Qed.

(** C2: [findSuccessor(id)], for every id, returns [self.Address] when
    both neighbor slots are unset (their ids are -1); otherwise
    [self.Address] when [between(predecessor.ID, id, self.ID)] or
    [id == self.ID]; otherwise [successor.Address] when
    [between(self.ID, id, successor.ID)] or [id == successor.ID]; otherwise
    what [sendSuccessorRequest] returns, namely the line read back after
    [SUCC <id>] was written to [successor.Address].  The local cases change
    nothing and write nothing. *)
Theorem findSuccessor_cases (id : Z) (m : machine E) :
  let p := m_peer m in
  let alone := (ID (predecessor p) =? -1) && (ID (successor p) =? -1) in
  let mine := between (ID (predecessor p)) id (ID (self p)) || (id =? ID (self p)) in
  let next := between (ID (self p)) id (ID (successor p)) || (id =? ID (successor p)) in
  (predecessor p = newNode -> successor p = newNode ->
     findSuccessor id m = (Ok (Address (self p)), m)) /\
  (alone = true -> findSuccessor id m = (Ok (Address (self p)), m)) /\
  (alone = false -> mine = true ->
     findSuccessor id m = (Ok (Address (self p)), m)) /\
  (alone = false -> mine = false -> next = true ->
     findSuccessor id m = (Ok (Address (successor p)), m)) /\
  (alone = false -> mine = false -> next = false ->
     findSuccessor id m = sendSuccessorRequest id (Address (successor p)) m /\
     forall reply e' answer rest,
       let conn := Go.TrimSpace (Address (successor p)) in
       let request := ("SUCC " ++ Go.Itoa id ++ Go.nl)%string in
       connect (m_env m) conn = true ->
       exchange (m_env m) conn request = (reply, e') ->
       Go.ReadString reply = (answer, rest, true) ->
       findSuccessor id m =
         (Ok answer, mkMachine p e' (m_trace m ++ [PeerWrite conn request]))).
Proof.
  intros p alone mine next.
  assert (Hfs := findSuccessor_eq id m). simpl in Hfs.
  fold p in Hfs. fold alone in Hfs. fold mine in Hfs. fold next in Hfs.
  split; [|split; [|split; [|split]]].
  - intros Hp Hs. rewrite Hfs. subst alone. rewrite Hp, Hs. reflexivity.
  - intros Ha. rewrite Hfs, Ha. reflexivity.
  - intros Ha Hm. rewrite Hfs, Ha, Hm. reflexivity.
  - intros Ha Hm Hn. rewrite Hfs, Ha, Hm, Hn. reflexivity.
  - intros Ha Hm Hn. rewrite Hfs, Ha, Hm, Hn. split; [reflexivity|].
    intros reply e' answer rest conn request Hc Hex Hrd.
    apply (sendSuccessorRequest_run id _ reply e' answer rest m Hc Hex Hrd).
Qed.

(** C10: an answer obtained by forwarding is the remote line as read, line
    feed included, and [handleSuccessorRequest] adds another line feed when
    it relays it.  In the three-peer ring, the peer at id 23 asked for id 60
    returns the address of the peer at id 83 followed by a line feed, which
    is not the bare address its successor returns for the same id. *)
Theorem forwarded_answer_keeps_newline :
  (forall (id : Z) (m m' : machine E) (answer : string),
     let p := m_peer m in
     (ID (predecessor p) =? -1) && (ID (successor p) =? -1) = false ->
     between (ID (predecessor p)) id (ID (self p)) || (id =? ID (self p)) = false ->
     between (ID (self p)) id (ID (successor p)) || (id =? ID (successor p)) = false ->
     findSuccessor id m = (Ok answer, m') ->
     exists body,
       answer = (body ++ Go.nl)%string /\
       Go.contains Go.nl_char body = false /\
       forall request idToken,
         Go.Split request !! 1%nat = Some idToken ->
         Go.Atoi idToken = (id, true) ->
         handleSuccessorRequest request m =
           (Ok tt, mkMachine (m_peer m') (m_env m')
                     (m_trace m' ++ [ConnWrite (body ++ Go.nl ++ Go.nl)]))) /\
  (let mA := mkMachine Demo.peerA Demo.ring [] in
   let mC := mkMachine Demo.peerC Demo.ring [] in
   fst (@findSuccessor _ (ringEnv 2) 60 mA) = Ok (Demo.addrB ++ Go.nl)%string /\
   fst (@findSuccessor _ (ringEnv 2) 60 mC) = Ok Demo.addrB /\
   (Demo.addrB ++ Go.nl)%string <> Demo.addrB /\
   replyBytes (m_trace (snd (@handleSuccessorRequest _ (ringEnv 2) "SUCC 60" mA))) =
     (Demo.addrB ++ Go.nl ++ Go.nl)%string).
Proof.
  split.
  - intros id m m' answer p Ha Hm Hn Hrun.
    assert (Heq := findSuccessor_eq id m). simpl in Heq. fold p in Heq.
    rewrite Ha, Hm, Hn in Heq. rewrite Heq in Hrun.
    destruct (sendSuccessorRequest_Ok _ _ _ _ _ Hrun) as (body & -> & Hbody).
    exists body. split; [reflexivity|]. split; [assumption|].
    intros request idToken Htok Hatoi.
    unfold handleSuccessorRequest. run.
    rewrite (index_Some _ _ _ _ Htok). rewrite Hatoi.
    rewrite Heq, Hrun. simpl.
    rewrite append_assoc. reflexivity.
  - vm_compute. repeat split. discriminate.
Qed.

(** *** Membership *)

(** A handler only ever appends to the trace. *)

Lemma extends_refl (m : machine E) : extends m m.
Proof. exists []. symmetry. apply app_nil_r. Qed.

Lemma extends_trans (m1 m2 m3 : machine E) :
  extends m1 m2 -> extends m2 m3 -> extends m1 m3.
Proof.
  intros [tr1 H1] [tr2 H2]. exists (tr1 ++ tr2).
  rewrite H2, H1. symmetry. apply app_assoc.
Qed.

Lemma storeFile_extends fileName peerAddr (m : machine E) :
  extends m (snd (storeFile fileName peerAddr m)).
Proof.
  unfold storeFile, connectToPeer, peerWrite. run.
  destruct (connect _ _); simpl; [|apply extends_refl].
  destruct (blobs (m_peer m) !! fileName) as [data|]; simpl; [|apply extends_refl].
  destruct (exchange _ _ _) as [reply e']. simpl.
  destruct (Go.ReadString reply) as [[line rest] ok].
  destruct (extractServerResponse line) as [respType respMsg].
  destruct (negb _); simpl; unfold extends; simpl;
    eexists; rewrite <- app_assoc; reflexivity.
Qed.

Lemma transferFiles_extends toTransfer newNodeAddr (m : machine E) :
  extends m (snd (transferFiles toTransfer newNodeAddr m)).
Proof.
  revert m. induction toTransfer as [|fileName rest IH]; intros m; simpl.
  - apply extends_refl.
  - run. pose proof (storeFile_extends fileName newNodeAddr m) as Hs.
    destruct (storeFile fileName newNodeAddr m) as [[[]|c] m1]; simpl in *.
    + eapply extends_trans; [exact Hs|].
      match goal with |- extends _ (snd (transferFiles _ _ ?m2)) =>
        eapply extends_trans; [|apply (IH m2)] end.
      exists []. simpl. symmetry. apply app_nil_r.
    + exact Hs.
Qed.

Lemma moveFilesToNewNode_extends newNodeAddr newNodeID (m : machine E) :
  extends m (snd (moveFilesToNewNode newNodeAddr newNodeID m)).
Proof. unfold moveFilesToNewNode. run. apply transferFiles_extends. Qed.

(** What the dispatcher of any peer does with an UPDATE line that names a
    new successor and keeps the predecessor. *)
Lemma handleRequest_update_keep (newAddr : string) (m : machine E) :
  Go.contains Go.sp_char newAddr = false ->
  Go.contains Go.nl_char newAddr = false ->
  handleRequest ("UPDATE " ++ newAddr ++ " KEEP" ++ Go.nl) m =
    (Ok tt, mkMachine (updateSlot set_successor newAddr (m_peer m))
              (m_env m) (m_trace m)).
Proof.
  intros Hsp Hnl. unfold handleRequest.
  set (line := ("UPDATE " ++ newAddr ++ " KEEP")%string).
  assert (Hline : ("UPDATE " ++ newAddr ++ " KEEP" ++ Go.nl)%string =
                  (line ++ Go.nl ++ EmptyString)%string).
  { subst line. rewrite !append_assoc. reflexivity. }
  rewrite Hline, ReadString_app_nl.
  2:{ subst line. rewrite !contains_app, Hnl. reflexivity. }
  assert (Htrim : Go.TrimSpace (line ++ Go.nl) = line).
  { unfold Go.TrimSpace.
    change (Go.TrimLeft (line ++ Go.nl)) with (line ++ Go.nl)%string.
    assert (Hshape : (line ++ Go.nl)%string =
              (("UPDATE " ++ newAddr ++ " KEE") ++ String "P"%char Go.nl)%string).
    { subst line. rewrite !append_assoc. reflexivity. }
    rewrite Hshape, TrimRight_app_nl by reflexivity.
    subst line. rewrite !append_assoc. reflexivity. }
  rewrite Htrim.
  assert (Hsplit : Go.Split line = ["UPDATE"; newAddr; "KEEP"]%string).
  { subst line.
    change (Go.Split ("UPDATE" ++ String Go.sp_char (newAddr ++ String Go.sp_char "KEEP")) =
            ["UPDATE"; newAddr; "KEEP"]%string).
    rewrite Split_app_space by reflexivity.
    rewrite Split_app_space by assumption. reflexivity. }
  change (Go.HasPrefix line "JOIN") with false.
  change (Go.HasPrefix line "SUCC") with false.
  change (Go.HasPrefix line "UPDATE") with true.
  cbv iota. unfold handleUpdateRequest. rewrite Hsplit. reflexivity.
Qed.
(** C5: when [findSuccessor] names the receiver itself as the successor of
    the newcomer, the receiver answers the newcomer and then writes
    [UPDATE <newcomer> KEEP] to its predecessor's address.  A peer that
    receives this line (and is neither the newcomer nor faced with an
    address spelled KEEP) sets its successor slot to the newcomer and
    leaves its predecessor slot as it is. *)
Theorem join_updates_predecessor (request newAddr : string) (m m1 : machine E) :
  let p := m_peer m in
  let predConn := Go.TrimSpace (Address (predecessor p)) in
  let update := ("UPDATE " ++ newAddr ++ " KEEP" ++ Go.nl)%string in
  Go.Split request !! 1%nat = Some newAddr ->
  ID (self p) <> hsh newAddr ->
  (ID (successor p) =? -1) && (ID (predecessor p) =? -1) = false ->
  findSuccessor (hsh newAddr) m = (Ok (Address (self p)), m1) ->
  connect (m_env m1) predConn = true ->
  (exists rest,
     m_trace (snd (handleJoinRequest request m)) =
       m_trace m1 ++
       [ConnWrite (Address (self p) ++ " " ++ Address (predecessor p) ++ Go.nl);
        PeerWrite predConn update] ++ rest) /\
  (forall q : machine E,
     Go.contains Go.nl_char newAddr = false ->
     newAddr <> "KEEP"%string ->
     newAddr <> Address (self (m_peer q)) ->
     handleRequest update q =
       (Ok tt, mkMachine (set_successor (mkNode newAddr (hsh newAddr)) (m_peer q))
                 (m_env q) (m_trace q)) /\
     predecessor (set_successor (mkNode newAddr (hsh newAddr)) (m_peer q)) =
       predecessor (m_peer q)).
Proof.
  intros p predConn update Htok Hself Halone Hfind Hconn.
  assert (Hsp : Go.contains Go.sp_char newAddr = false).
  { apply (Split_no_space request). eapply list_elem_of_lookup_2, Htok. }
  split.
  - unfold handleJoinRequest. run.
    rewrite (index_Some _ _ _ _ Htok). fold p.
    apply Z.eqb_neq in Hself. rewrite Hself. rewrite Halone.
    rewrite Hfind. rewrite String.eqb_refl. simpl.
    unfold sendUpdateRequest, connectToPeer, peerWrite. run.
    fold predConn. rewrite Hconn. simpl.
    destruct (exchange (m_env m1) predConn _) as [reply e'] eqn:Hex. simpl.
    match goal with
    | |- context [moveFilesToNewNode ?a ?i ?m2] =>
        pose proof (moveFilesToNewNode_extends a i m2) as [tr Htr];
        destruct (moveFilesToNewNode a i m2) as [[[]|c] m3]
    end; simpl in *; exists tr; rewrite Htr, <- !app_assoc; reflexivity.
  - intros q Hnl Hkeep Hne. split; [|reflexivity].
    subst update. rewrite (handleRequest_update_keep newAddr q Hsp Hnl).
    rewrite updateSlot_set by assumption. reflexivity.
Qed.

(** *** Handoff *)

Lemma lookup_deleteAll {V} (names : list string) (mp : gmap string V) name :
  deleteAll names mp !! name = if decide (name ∈ names) then None else mp !! name.
Proof.
  revert mp. induction names as [|n names IH]; intros mp.
  - case_decide as Hin; [|reflexivity]. by apply elem_of_nil in Hin.
  - change (deleteAll (n :: names) mp) with (deleteAll names (delete n mp)).
    rewrite IH.
    destruct (decide (name ∈ names)) as [Hin|Hin].
    + rewrite decide_True by (right; assumption). reflexivity.
    + destruct (decide (name = n)) as [->|Hne].
      * rewrite decide_True by left. apply lookup_delete_eq.
      * rewrite decide_False by (intros [?|?]%elem_of_cons; contradiction).
        apply lookup_delete_ne. congruence.
Qed.

Lemma collectTransfers_filter newNodeID selfID (entries : list (string * Z)) :
  collectTransfers newNodeID selfID entries =
  (filter (fun kv => between newNodeID kv.2 selfID = false) entries).*1.
Proof.
  induction entries as [|[name k] entries IH]; [reflexivity|]. simpl.
  rewrite filter_cons. simpl.
  destruct (between newNodeID k selfID) eqn:Hb.
  - rewrite decide_False by discriminate. exact IH.
  - rewrite decide_True by reflexivity. simpl. f_equal. exact IH.
Qed.

Lemma collectTransfers_range newNodeID selfID (e : E) (sf : gmap string Z) name :
  name ∈ collectTransfers newNodeID selfID (range_order e sf) <->
  exists k, sf !! name = Some k /\ between newNodeID k selfID = false.
Proof.
  rewrite collectTransfers_filter, list_elem_of_fmap. split.
  - intros ([n k] & -> & Hin). apply list_elem_of_filter in Hin as [Hb Hin].
    rewrite (range_order_perm e sf) in Hin.
    apply elem_of_map_to_list in Hin. eauto.
  - intros (k & Hk & Hb). exists (name, k). split; [reflexivity|].
    apply list_elem_of_filter. split; [exact Hb|].
    rewrite (range_order_perm e sf). apply elem_of_map_to_list. exact Hk.
Qed.

Lemma collectTransfers_NoDup newNodeID selfID (e : E) (sf : gmap string Z) :
  NoDup (collectTransfers newNodeID selfID (range_order e sf)).
Proof.
  rewrite collectTransfers_filter.
  apply (sublist_NoDup _ ((range_order e sf).*1)).
  - rewrite (range_order_perm e sf). apply NoDup_fst_map_to_list.
  - apply fmap_sublist, sublist_filter.
Qed.

Section Handoff.

Variable newNodeAddr : string.
Variable Inv : E -> Prop.

Local Abbreviation conn := (Go.TrimSpace newNodeAddr).

Hypothesis Inv_connect : forall e, Inv e -> connect e conn = true.
Hypothesis Inv_exchange : forall e fileName size,
  Inv e -> Inv (snd (exchange e conn (storeRequest fileName size))).
Hypothesis Inv_accepts : forall e fileName size,
  Inv e -> accepted (fst (exchange e conn (storeRequest fileName size))).




End Handoff.

End PeerFacts.

(** ** The theorems at concrete peers *)


Example moveFiles_lone_peer :
  storedFiles (m_peer (snd (@moveFilesToNewNode unit acceptingEnv Demo.addrC
                              (hsh Demo.addrC) Demo.loneHolder)))
    = <["hi"%string := 59]> ∅ /\
  blobs (m_peer (snd (@moveFilesToNewNode unit acceptingEnv Demo.addrC
                        (hsh Demo.addrC) Demo.loneHolder)))
    = <["hi"%string := "hello"%string]> ∅ /\
  m_trace (snd (@moveFilesToNewNode unit acceptingEnv Demo.addrC
                  (hsh Demo.addrC) Demo.loneHolder))
    = [PeerWrite Demo.addrC ("STORE main.go 12" ++ Go.nl);
       PeerCopy Demo.addrC "package main"].
Proof. vm_compute. repeat split. Qed.

Lemma findSuccessor_cases_witness :
  fst (@findSuccessor _ (ringEnv 2) 60 Demo.alone) = Ok Demo.addrA /\
  fst (@findSuccessor _ (ringEnv 2) 40 Demo.atC) = Ok Demo.addrC /\
  fst (@findSuccessor _ (ringEnv 2) 60 Demo.atC) = Ok Demo.addrB /\
  @findSuccessor _ (ringEnv 2) 60 Demo.atA =
    (Ok (Demo.addrB ++ Go.nl)%string,
     mkMachine Demo.peerA
       (snd (@exchange _ (ringEnv 2) Demo.ring Demo.addrC ("SUCC 60" ++ Go.nl)))
       [PeerWrite Demo.addrC ("SUCC 60" ++ Go.nl)]).
Proof.
  split; [|split; [|split]].
  - destruct (@findSuccessor_cases _ (ringEnv 2) 60 Demo.alone) as (_ & Halone & _).
    rewrite Halone; reflexivity.
  - destruct (@findSuccessor_cases _ (ringEnv 2) 40 Demo.atC) as (_ & _ & Hmine & _).
    rewrite Hmine; reflexivity.
  - destruct (@findSuccessor_cases _ (ringEnv 2) 60 Demo.atC) as (_ & _ & _ & Hnext & _).
    rewrite Hnext; reflexivity.
  - destruct (@findSuccessor_cases _ (ringEnv 2) 60 Demo.atA) as (_ & _ & _ & _ & Hfwd).
    destruct Hfwd as [_ Hfwd]; [reflexivity..|].
    apply (Hfwd (fst (@exchange _ (ringEnv 2) Demo.ring Demo.addrC ("SUCC 60" ++ Go.nl)))
             _ _ EmptyString).
    + reflexivity.
    + apply surjective_pairing.
    + vm_compute. reflexivity.
Defined.

Lemma update_request_witness :
  Go.Split "UPDATE 127.0.0.1:8001 KEEP" !! 1%nat = Some Demo.addrA /\
  Go.Split "UPDATE 127.0.0.1:8001 KEEP" !! 2%nat = Some "KEEP"%string /\
  handleUpdateRequest "UPDATE 127.0.0.1:8001 KEEP" Demo.atA =
    (Ok tt, mkMachine (cleared Demo.peerA) Demo.ring []).
Proof.
  split; [reflexivity|]. split; [reflexivity|].
  destruct (update_request "UPDATE 127.0.0.1:8001 KEEP"
              Demo.addrA "KEEP" Demo.atA eq_refl eq_refl)
    as (Hrun & _ & _ & _ & _ & Hclear & _).
  rewrite Hrun. rewrite Hclear; [reflexivity|reflexivity|discriminate|reflexivity].
Defined.

(** C4, as stated, fails: at the peer listening on 127.0.0.1:8001, an
    UPDATE carrying the own address as successor token and another address
    as predecessor token ends with the predecessor slot bound to that other
    address, whereas the same two tokens the other way round end with both
    slots unset. *)
Lemma update_self_and_other_counterexample :
  predecessor (m_peer (snd (handleUpdateRequest
     "UPDATE 127.0.0.1:8001 127.0.0.1:8003" Demo.atA))) = Demo.nodeOf Demo.addrB /\
  Demo.nodeOf Demo.addrB <> newNode /\
  successor (m_peer (snd (handleUpdateRequest
     "UPDATE 127.0.0.1:8001 127.0.0.1:8003" Demo.atA))) = newNode /\
  predecessor (m_peer (snd (handleUpdateRequest
     "UPDATE 127.0.0.1:8003 127.0.0.1:8001" Demo.atA))) = newNode /\
  successor (m_peer (snd (handleUpdateRequest
     "UPDATE 127.0.0.1:8003 127.0.0.1:8001" Demo.atA))) = newNode.
Proof. vm_compute. repeat split. discriminate. Qed.

Lemma join_updates_predecessor_witness :
  Go.Split "JOIN 127.0.0.1:8005" !! 1%nat = Some Demo.addrN /\
  ID (self Demo.peerC) <> hsh Demo.addrN /\
  @findSuccessor _ (ringEnv 2) (hsh Demo.addrN) Demo.atC = (Ok Demo.addrC, Demo.atC) /\
  exists rest,
    m_trace (snd (@handleJoinRequest _ (ringEnv 2) "JOIN 127.0.0.1:8005" Demo.atC)) =
      [ConnWrite (Demo.addrC ++ " " ++ Demo.addrA ++ Go.nl);
       PeerWrite Demo.addrA ("UPDATE 127.0.0.1:8005 KEEP" ++ Go.nl)] ++ rest.
Proof.
  split; [reflexivity|]. split; [vm_compute; discriminate|]. split; [reflexivity|].
  destruct (@join_updates_predecessor _ (ringEnv 2) "JOIN 127.0.0.1:8005"
              Demo.addrN Demo.atC Demo.atC) as [Htrace _].
  - reflexivity.
  - vm_compute. discriminate.
  - reflexivity.
  - reflexivity.
  - reflexivity.
  - exact Htrace.
Defined.

Example join_in_ring_updates_peerA :
  predecessor (m_peer (snd (@handleJoinRequest _ (ringEnv 2)
     "JOIN 127.0.0.1:8005" Demo.atC))) = Demo.nodeOf Demo.addrN /\
  (successor <$> m_env (snd (@handleJoinRequest _ (ringEnv 2)
     "JOIN 127.0.0.1:8005" Demo.atC)) !! Demo.addrA) = Some (Demo.nodeOf Demo.addrN) /\
  (predecessor <$> m_env (snd (@handleJoinRequest _ (ringEnv 2)
     "JOIN 127.0.0.1:8005" Demo.atC)) !! Demo.addrA) = Some (Demo.nodeOf Demo.addrB).
Proof. vm_compute. repeat split. Qed.

Lemma store_copy_error_witness :
  Z.of_nat (String.length "abc") < fst (Go.Atoi "5") /\
  @handleStoreRequest _ (ringEnv 0) "STORE hi 5" "abc" Demo.alone =
    (Ok tt,
     mkMachine (set_blobs (<["hi"%string := "abc"%string]> ∅) (Demo.lonePeer ∅ ∅)) ∅
       [ConnWrite ("OK" ++ Go.nl); ConnWrite ("ERR Could not copy file." ++ Go.nl)]).
Proof.
  split; [vm_compute; reflexivity|].
  apply (@store_copy_error _ (ringEnv 0) "STORE hi 5" "abc" "hi" "5" Demo.alone).
  - reflexivity.
  - reflexivity.
  - reflexivity.
  - vm_compute. reflexivity.
Defined.

(** C6, as stated, fails: a STORE of 5 bytes on which only 3 arrive leaves
    those 3 bytes stored under the file name; and when the name was
    registered before, it stays registered with the 3 bytes as its blob. *)
Lemma store_partial_blob_counterexample :
  replyBytes (m_trace (snd (@handleStoreRequest _ (ringEnv 0)
     "STORE hi 5" "abc" Demo.alone))) =
     ("OK" ++ Go.nl ++ "ERR Could not copy file." ++ Go.nl)%string /\
  blobs (m_peer (snd (@handleStoreRequest _ (ringEnv 0)
     "STORE hi 5" "abc" Demo.alone))) !! "hi"%string = Some "abc"%string /\
  storedFiles (m_peer (snd (@handleStoreRequest _ (ringEnv 0)
     "STORE hi 5" "abc" Demo.aloneWithFile))) !! "hi"%string = Some 59 /\
  blobs (m_peer (snd (@handleStoreRequest _ (ringEnv 0)
     "STORE hi 5" "abc" Demo.aloneWithFile))) !! "hi"%string = Some "abc"%string.
Proof. vm_compute. repeat split. Qed.

Lemma join_self_collision_witness :
  Go.Split "JOIN 127.0.0.1:8001" !! 1%nat = Some Demo.addrA /\
  hsh Demo.addrA = ID (self Demo.peerA) /\
  @handleJoinRequest _ (ringEnv 2) "JOIN 127.0.0.1:8001" Demo.atA =
    (Ok tt, mkMachine Demo.peerA Demo.ring [ConnClose]).
Proof.
  split; [reflexivity|]. split; [reflexivity|].
  apply (@join_self_collision _ (ringEnv 2) "JOIN 127.0.0.1:8001" Demo.addrA Demo.atA).
  - reflexivity.
  - reflexivity.
Defined.

Lemma forwarded_answer_keeps_newline_witness :
  exists body,
    (Demo.addrB ++ Go.nl)%string = (body ++ Go.nl)%string /\
    Go.contains Go.nl_char body = false /\
    forall request idToken,
      Go.Split request !! 1%nat = Some idToken ->
      Go.Atoi idToken = (60, true) ->
      @handleSuccessorRequest _ (ringEnv 2) request Demo.atA =
        (Ok tt,
         mkMachine Demo.peerA
           (snd (@exchange _ (ringEnv 2) Demo.ring Demo.addrC ("SUCC 60" ++ Go.nl)))
           ([PeerWrite Demo.addrC ("SUCC 60" ++ Go.nl)] ++
            [ConnWrite (body ++ Go.nl ++ Go.nl)])).
Proof.
  destruct (@forwarded_answer_keeps_newline _ (ringEnv 2)) as [Hfwd _].
  apply (Hfwd 60 Demo.atA
           (mkMachine Demo.peerA
              (snd (@exchange _ (ringEnv 2) Demo.ring Demo.addrC ("SUCC 60" ++ Go.nl)))
              [PeerWrite Demo.addrC ("SUCC 60" ++ Go.nl)])
           (Demo.addrB ++ Go.nl)%string).
  - reflexivity.
  - reflexivity.
  - reflexivity.
  - vm_compute. reflexivity.
Defined.

(** * Further properties *)

(** ** Decimal numbers on the wire *)

Lemma digits_val_acc (d : Decimal.uint) : forall acc : positive,
  Go.digits_val (Z.pos acc) (NilEmpty.string_of_uint d) =
  Some (Z.pos (Pos.of_uint_acc d acc)).
Proof.
  induction d; intros acc; simpl; try reflexivity;
    match goal with
    | |- context [Z.of_nat (nat_of_ascii ?c) - 48] =>
        let v := eval vm_compute in (Z.of_nat (nat_of_ascii c) - 48) in
        change (Z.of_nat (nat_of_ascii c) - 48) with v
    end; rewrite <- IHd; f_equal; lia.
Qed.

Lemma digits_val_uint (d : Decimal.uint) :
  Go.digits_val 0 (NilEmpty.string_of_uint d) = Some (Z.of_N (Pos.of_uint d)).
Proof.
  induction d; simpl; try reflexivity;
    match goal with
    | |- context [Z.of_nat (nat_of_ascii ?c) - 48] =>
        let v := eval vm_compute in (Z.of_nat (nat_of_ascii c) - 48) in
        change (Z.of_nat (nat_of_ascii c) - 48) with v
    end; simpl; try exact IHd; apply digits_val_acc.
Qed.


Lemma Atoi_Itoa (z : Z) : GoInt.in_range z -> Go.Atoi (Go.Itoa z) = (z, true).
Proof.
  unfold GoInt.in_range, GoInt.min_int, GoInt.max_int. intros Hz.
  destruct z as [|p|p].
  - reflexivity.
  - unfold Go.Itoa. simpl.
    pose proof (Unsigned.to_uint_nonnil p) as Hnn.
    pose proof (digits_val_uint (Pos.to_uint p)) as Hd.
    rewrite Unsigned.of_to in Hd. simpl in Hd.
    pose proof (I) as Hall.
    unfold NilZero.string_of_uint.
    destruct (Pos.to_uint p) eqn:Hu; try congruence;
      unfold Go.Atoi; simpl in *; rewrite Hd;
      (destruct (2 ^ 63 <=? Z.pos p) eqn:Hle; [apply Z.leb_le in Hle; lia|]);
      reflexivity.
  - unfold Go.Itoa. simpl.
    pose proof (Unsigned.to_uint_nonnil p) as Hnn.
    pose proof (digits_val_uint (Pos.to_uint p)) as Hd.
    rewrite Unsigned.of_to in Hd. simpl in Hd.
    unfold NilZero.string_of_uint.
    destruct (Pos.to_uint p) eqn:Hu; try congruence;
      unfold Go.Atoi; simpl in *; rewrite Hd;
      (destruct (2 ^ 63 <? Z.pos p) eqn:Hle; [apply Z.ltb_lt in Hle; lia|]);
      reflexivity.
Qed.

(** ** Tokens *)

Lemma noSpace_no_sp (s : string) : Go.noSpace s = true -> Go.contains Go.sp_char s = false.
Proof.
  induction s as [|c s IH]; [reflexivity|]. simpl.
  intros [Hc Hs]%andb_prop. rewrite (IH Hs), orb_false_r.
  destruct (Ascii.eqb_spec c Go.sp_char) as [->|]; [discriminate|reflexivity].
Qed.

Lemma noSpace_no_nl (s : string) : Go.noSpace s = true -> Go.contains Go.nl_char s = false.
Proof.
  induction s as [|c s IH]; [reflexivity|]. simpl.
  intros [Hc Hs]%andb_prop. rewrite (IH Hs), orb_false_r.
  destruct (Ascii.eqb_spec c Go.nl_char) as [->|]; [discriminate|reflexivity].
Qed.

Lemma isToken_inv (s : string) :
  Go.isToken s = true -> s <> EmptyString /\ Go.noSpace s = true.
Proof.
  unfold Go.isToken. intros [Hne Hs]%andb_prop. split; [|exact Hs].
  intros ->. discriminate.
Qed.

Lemma TrimRight_app (s t : string) :
  Go.TrimRight t <> EmptyString -> Go.TrimRight (s ++ t) = (s ++ Go.TrimRight t)%string.
Proof.
  intros Ht. induction s as [|c s IH]; [reflexivity|].
  change (Go.TrimRight (String c (s ++ t)) = String c (s ++ Go.TrimRight t)).
  simpl. rewrite IH. destruct (s ++ Go.TrimRight t)%string eqn:Hst; [|reflexivity].
  destruct s; [|discriminate]. simpl in Hst. contradiction.
Qed.

Lemma TrimRight_token_nl (x : string) :
  Go.isToken x = true -> Go.TrimRight (x ++ Go.nl) = x.
Proof.
  intros [Hne Hs]%isToken_inv. induction x as [|c x IH]; [contradiction|].
  change (Go.TrimRight (String c (x ++ Go.nl)) = String c x).
  simpl in Hs. apply andb_prop in Hs as [Hc Hs]. apply negb_true_iff in Hc.
  destruct x as [|c' x'].
  - simpl. rewrite Hc. reflexivity.
  - simpl in *. rewrite IH by (assumption || discriminate). reflexivity.
Qed.

Lemma TrimRight_token (x : string) : Go.isToken x = true -> Go.TrimRight x = x.
Proof.
  intros [Hne Hs]%isToken_inv. induction x as [|c x IH]; [contradiction|].
  simpl in Hs. apply andb_prop in Hs as [Hc Hs]. apply negb_true_iff in Hc.
  destruct x as [|c' x'].
  - simpl. rewrite Hc. reflexivity.
  - simpl in *. rewrite IH by (assumption || discriminate). reflexivity.
Qed.

Lemma TrimLeft_token (x : string) : Go.isToken x = true -> Go.TrimLeft x = x.
Proof.
  intros [Hne Hs]%isToken_inv. destruct x as [|c x]; [contradiction|].
  simpl in *. apply andb_prop in Hs as [Hc Hs]. apply negb_true_iff in Hc.
  rewrite Hc. reflexivity.
Qed.

(** Trimming a token, with or without a line feed after it, yields the token. *)
Lemma TrimSpace_token_nl (x : string) :
  Go.isToken x = true -> Go.TrimSpace (x ++ Go.nl) = x /\ Go.TrimSpace x = x.
Proof.
  intros Hx. unfold Go.TrimSpace.
  assert (Hl : Go.TrimLeft (x ++ Go.nl) = (x ++ Go.nl)%string).
  { pose proof (isToken_inv _ Hx) as [Hne Hs]. destruct x as [|c x]; [contradiction|].
    change (Go.TrimLeft (String c (x ++ Go.nl)) = String c (x ++ Go.nl)).
    simpl in *. apply andb_prop in Hs as [Hc Hs]. apply negb_true_iff in Hc.
    rewrite Hc. reflexivity. }
  rewrite Hl, (TrimLeft_token _ Hx), (TrimRight_token_nl _ Hx), (TrimRight_token _ Hx).
  split; reflexivity.
Qed.

Lemma isDigit_not_space (c : ascii) : Go.isDigit c = true -> Go.isSpace c = false.
Proof.
  unfold Go.isDigit, Go.isSpace. cbv zeta. generalize (nat_of_ascii c). intros n.
  intros [H1 H2]%andb_prop. apply Nat.leb_le in H1, H2.
  destruct (Nat.leb_spec 9 n), (Nat.leb_spec n 13), (Nat.eqb_spec n 32);
    try reflexivity; lia.
Qed.

Lemma allDigits_noSpace (s : string) : Go.allDigits s = true -> Go.noSpace s = true.
Proof.
  induction s as [|c s IH]; [reflexivity|]. simpl.
  intros [Hc Hs]%andb_prop. rewrite (isDigit_not_space _ Hc), (IH Hs). reflexivity.
Qed.

Lemma string_of_uint_digits (d : Decimal.uint) :
  Go.allDigits (NilEmpty.string_of_uint d) = true.
Proof. induction d; simpl; try reflexivity; exact IHd. Qed.

Lemma Itoa_token (z : Z) : Go.isToken (Go.Itoa z) = true.
Proof.
  unfold Go.Itoa.
  assert (Hu : forall d, Go.isToken (NilZero.string_of_uint d) = true).
  { intros d. pose proof (string_of_uint_digits d) as Hd.
    apply allDigits_noSpace in Hd. unfold NilZero.string_of_uint.
    destruct d; try reflexivity; unfold Go.isToken; simpl in *; exact Hd. }
  destruct z as [|p|p]; simpl.
  - reflexivity.
  - apply Hu.
  - specialize (Hu (Pos.to_uint p)). unfold Go.isToken in *. simpl.
    apply andb_prop in Hu as [_ Hu]. exact Hu.
Qed.

(** ** More on the ring predicate and on strings *)

(** X1: for two distinct ids of the ring, every third id lies in exactly
    one of the two open arcs between them: [between(low, n, high)] holds
    exactly when [between(high, n, low)] does not. *)
Theorem between_arcs_partition (low n high : Z) :
  0 <= low < ringCapacity -> 0 <= n < ringCapacity -> 0 <= high < ringCapacity ->
  low <> high -> n <> low -> n <> high ->
  between low n high = negb (between high n low).
Proof.
  intros Hl Hn Hh Hlh Hnl Hnh.
  rewrite !between_on_ring by assumption.
  repeat match goal with
  | |- context [?a =? ?b] => destruct (Z.eqb_spec a b)
  | |- context [?a <? ?b] => destruct (Z.ltb_spec a b)
  end; simpl; try reflexivity; lia.
Qed.


Lemma length_take (n : nat) (s : string) :
  (n <= String.length s)%nat -> String.length (Go.take n s) = n.
Proof.
  unfold Go.take. revert n. induction s as [|c s IH]; intros n Hn; simpl in *.
  - destruct n; [reflexivity|lia].
  - destruct n; [reflexivity|]. simpl. f_equal. apply IH. lia.
Qed.

Lemma take_all (s : string) : Go.take (String.length s) s = s.
Proof.
  unfold Go.take. induction s as [|c s IH]; [reflexivity|].
  simpl. f_equal. exact IH.
Qed.

Lemma Split_single (s : string) :
  Go.contains Go.sp_char s = false -> Go.Split s = [s].
Proof.
  induction s as [|c s IH]; intros Hs; [reflexivity|].
  simpl in Hs. apply orb_false_elim in Hs as [Hc Hs].
  simpl. rewrite Hc. rewrite (IH Hs). reflexivity.
Qed.

Lemma TrimSpace_line (c : ascii) (body x : string) :
  Go.isSpace c = false -> Go.isToken x = true ->
  Go.TrimSpace (String c (body ++ x) ++ Go.nl) = String c (body ++ x).
Proof.
  intros Hc Hx. unfold Go.TrimSpace.
  change (Go.TrimLeft (String c (body ++ x) ++ Go.nl))
    with (if Go.isSpace c then Go.TrimLeft ((body ++ x) ++ Go.nl)
          else (String c (body ++ x) ++ Go.nl)%string).
  rewrite Hc.
  change (String c (body ++ x) ++ Go.nl)%string
    with ((String c body ++ x) ++ Go.nl)%string.
  rewrite append_assoc, TrimRight_app; rewrite (TrimRight_token_nl _ Hx).
  - reflexivity.
  - apply isToken_inv in Hx as [Hne _]. exact Hne.
Qed.

Lemma contains_token_line c (verb x : string) :
  Go.contains c verb = false -> Go.contains c x = false ->
  Go.contains c (verb ++ x) = false.
Proof. intros Hv Hx. rewrite contains_app, Hv, Hx. reflexivity. Qed.

Lemma peerWrites_app (tr1 tr2 : list event) :
  peerWrites (tr1 ++ tr2) = peerWrites tr1 ++ peerWrites tr2.
Proof.
  induction tr1 as [|ev tr1 IH]; [reflexivity|].
  destruct ev; simpl; rewrite ?IH; reflexivity.
Qed.

Lemma peerCopies_app (tr1 tr2 : list event) :
  peerCopies (tr1 ++ tr2) = peerCopies tr1 ++ peerCopies tr2.
Proof.
  induction tr1 as [|ev tr1 IH]; [reflexivity|].
  destruct ev; simpl; rewrite ?IH; reflexivity.
Qed.

Lemma forward_progress (a b id : Z) :
  0 <= a < ringCapacity -> 0 <= b < ringCapacity -> 0 <= id < ringCapacity ->
  a <> b -> id <> a ->
  between a id b || (id =? b) = false ->
  (id - b) mod ringCapacity < (id - a) mod ringCapacity.
Proof.
  intros Ha Hb Hid Hab Hida Hnext.
  apply orb_false_elim in Hnext as [Hbt Hidb]. apply Z.eqb_neq in Hidb.
  rewrite between_on_ring in Hbt by assumption.
  unfold ringCapacity in *.
  assert (Hm : forall x y, 0 <= x < 127 -> 0 <= y < 127 ->
            (x - y) mod 127 = if x <? y then x - y + 127 else x - y).
  { intros x y Hx Hy. destruct (Z.ltb_spec x y).
    - symmetry. apply (Z.mod_unique _ _ (-1)); lia.
    - apply Z.mod_small. lia. }
  rewrite !Hm by assumption.
  repeat match goal with
  | H : context [?x =? ?y] |- _ => destruct (Z.eqb_spec x y)
  | H : context [?x <? ?y] |- _ => destruct (Z.ltb_spec x y)
  | |- context [?x <? ?y] => destruct (Z.ltb_spec x y)
  end; simpl in *; try discriminate; lia.
Qed.

(** ** More on the handlers *)

Section MoreFacts.

Context {E : Type} `{Environment E}.

Ltac run :=
  unfold mbind, mret, M_bind, M_ret, getPeer, getEnv, modifyPeer, emit,
    fatal, panic; simpl.



Lemma index_None (tokens : list string) i (m : machine E) :
  tokens !! i = None -> index tokens i m = (Crashed Panic, m).
Proof. intros Htok. unfold index. rewrite Htok. reflexivity. Qed.

Lemma handleStoreRequest_ok (request input fileName sizeToken : string) (m : machine E) :
  Go.Split request !! 1%nat = Some fileName ->
  Go.Split request !! 2%nat = Some sizeToken ->
  creatable (m_env m) fileName = true ->
  fst (Go.Atoi sizeToken) <= Z.of_nat (String.length input) ->
  handleStoreRequest request input m =
    (Ok tt,
     mkMachine (stored fileName (Go.take (Z.to_nat (fst (Go.Atoi sizeToken))) input)
                  (m_peer m))
       (m_env m)
       (m_trace m ++ [ConnWrite ("OK" ++ Go.nl); ConnWrite ("OK" ++ Go.nl)])).
Proof.
  intros Hname Hsize Hcreate Hlen.
  unfold handleStoreRequest. run.
  rewrite (index_Some _ _ _ _ Hname). rewrite (index_Some _ _ _ _ Hsize).
  rewrite Hcreate. simpl.
  destruct (Z.ltb_spec (Z.of_nat (String.length input)) (fst (Go.Atoi sizeToken)));
    [lia|]. simpl.
  unfold stored, set_storedFiles, set_blobs. simpl. rewrite insert_insert_eq.
  rewrite <- app_assoc. reflexivity.
Qed.

(** X3: after a STORE whose declared size is covered by the bytes that
    arrive, a RETRIEVE of the same name answers [OK <size>], then exactly
    the first [size] bytes received, then OK; the name is registered under
    the hash of the name. *)
Theorem store_then_retrieve
    (storeReq retrieveReq input fileName sizeToken : string) (m : machine E) :
  let size := fst (Go.Atoi sizeToken) in
  let m1 := snd (handleStoreRequest storeReq input m) in
  Go.Split storeReq !! 1%nat = Some fileName ->
  Go.Split storeReq !! 2%nat = Some sizeToken ->
  creatable (m_env m) fileName = true ->
  0 <= size <= Z.of_nat (String.length input) ->
  Go.Split retrieveReq !! 1%nat = Some fileName ->
  handleRetrieveRequest retrieveReq m1 =
    (Ok tt,
     mkMachine (m_peer m1) (m_env m1)
       (m_trace m1 ++
        [ConnWrite ("OK " ++ Go.Itoa size ++ Go.nl);
         ConnCopy (Go.take (Z.to_nat size) input);
         ConnWrite ("OK" ++ Go.nl)])) /\
  storedFiles (m_peer m1) !! fileName = Some (hsh fileName).
Proof.
  intros size m1 Hname Hsize Hcreate Hlen Hretr.
  subst m1. rewrite (handleStoreRequest_ok _ _ _ _ _ Hname Hsize Hcreate) by lia.
  simpl. split; [|apply lookup_insert_eq].
  unfold handleRetrieveRequest. run.
  rewrite (index_Some _ _ _ _ Hretr). simpl.
  rewrite !lookup_insert_eq. fold size.
  rewrite length_take by lia. rewrite Z2Nat.id by lia.
  cbn [m_trace m_peer m_env]. rewrite <- !app_assoc. reflexivity.
Qed.

(** X5: the error of [strconv.Atoi] is dropped, so a STORE whose size token
    is not a number (or is zero or negative) succeeds without reading any
    byte: an empty blob is stored and registered, and OK is answered
    twice. *)
Theorem store_without_size (request input fileName sizeToken : string) (m : machine E) :
  Go.Split request !! 1%nat = Some fileName ->
  Go.Split request !! 2%nat = Some sizeToken ->
  creatable (m_env m) fileName = true ->
  fst (Go.Atoi sizeToken) <= 0 ->
  handleStoreRequest request input m =
    (Ok tt,
     mkMachine (stored fileName EmptyString (m_peer m)) (m_env m)
       (m_trace m ++ [ConnWrite ("OK" ++ Go.nl); ConnWrite ("OK" ++ Go.nl)])).
Proof.
  intros Hname Hsize Hcreate Hle.
  rewrite (handleStoreRequest_ok _ _ _ _ _ Hname Hsize Hcreate) by lia.
  replace (Z.to_nat (fst (Go.Atoi sizeToken))) with 0%nat by lia.
  destruct input; reflexivity.
Qed.

(** X4: a second STORE of the same name overwrites the first: the blob is
    the second payload, and [storedFiles] is what it was after the first
    STORE, with the one entry for that name. *)
Theorem store_twice (request1 request2 input1 input2 fileName size1 size2 : string)
    (m : machine E) :
  let m1 := snd (handleStoreRequest request1 input1 m) in
  let m2 := snd (handleStoreRequest request2 input2 m1) in
  Go.Split request1 !! 1%nat = Some fileName ->
  Go.Split request1 !! 2%nat = Some size1 ->
  Go.Split request2 !! 1%nat = Some fileName ->
  Go.Split request2 !! 2%nat = Some size2 ->
  creatable (m_env m) fileName = true ->
  fst (Go.Atoi size1) <= Z.of_nat (String.length input1) ->
  fst (Go.Atoi size2) <= Z.of_nat (String.length input2) ->
  storedFiles (m_peer m2) = storedFiles (m_peer m1) /\
  storedFiles (m_peer m2) = <[fileName := hsh fileName]> (storedFiles (m_peer m)) /\
  blobs (m_peer m2) =
    <[fileName := Go.take (Z.to_nat (fst (Go.Atoi size2))) input2]> (blobs (m_peer m)).
Proof.
  intros m1 m2 Hn1 Hs1 Hn2 Hs2 Hcreate Hl1 Hl2. subst m2 m1.
  rewrite (handleStoreRequest_ok _ _ _ _ _ Hn1 Hs1 Hcreate Hl1). simpl.
  rewrite (handleStoreRequest_ok _ _ _ _ _ Hn2 Hs2) by assumption. simpl.
  rewrite !insert_insert_eq. repeat split.
Qed.

(** X7: RETRIEVE changes neither the peer nor its surroundings, whatever
    the request; for a name that is not registered, or whose blob is
    missing, the only answer is [ERR File does not exist.]. *)
Theorem retrieve_only_reads (request : string) (m : machine E) :
  m_peer (snd (handleRetrieveRequest request m)) = m_peer m /\
  m_env (snd (handleRetrieveRequest request m)) = m_env m /\
  (forall fileName,
     Go.Split request !! 1%nat = Some fileName ->
     storedFiles (m_peer m) !! fileName = None \/ blobs (m_peer m) !! fileName = None ->
     handleRetrieveRequest request m =
       (Ok tt, mkMachine (m_peer m) (m_env m)
                 (m_trace m ++ [ConnWrite ("ERR File does not exist." ++ Go.nl)]))).
Proof.
  unfold handleRetrieveRequest. run.
  destruct (Go.Split request !! 1%nat) as [fileName|] eqn:Htok.
  - rewrite (index_Some _ _ _ _ Htok).
    destruct (storedFiles (m_peer m) !! fileName) as [k|] eqn:Hk;
      [destruct (blobs (m_peer m) !! fileName) as [data|] eqn:Hb|]; simpl;
      (split; [reflexivity|split; [reflexivity|]]);
      intros fileName' [= <-] [Hnone|Hnone]; rewrite ?Hk, ?Hb in *;
      try discriminate; reflexivity.
  - rewrite (index_None _ _ _ Htok). simpl. repeat split. discriminate.
Qed.

(** X8: malformed requests end the process.  A request line without a
    space has no second token, and each of the five handlers panics on it
    (index out of range) before doing anything; a SUCC request whose id
    token [strconv.Atoi] rejects is fatal. *)
Theorem malformed_requests_crash (request : string) (m : machine E) :
  (Go.contains Go.sp_char request = false ->
   handleJoinRequest request m = (Crashed Panic, m) /\
   handleSuccessorRequest request m = (Crashed Panic, m) /\
   handleUpdateRequest request m = (Crashed Panic, m) /\
   (forall input, handleStoreRequest request input m = (Crashed Panic, m)) /\
   handleRetrieveRequest request m = (Crashed Panic, m)) /\
  (forall idToken,
     Go.Split request !! 1%nat = Some idToken ->
     snd (Go.Atoi idToken) = false ->
     handleSuccessorRequest request m = (Crashed Fatal, m)).
Proof.
  split.
  - intros Hsp.
    unfold handleJoinRequest, handleSuccessorRequest, handleUpdateRequest,
      handleStoreRequest, handleRetrieveRequest. run.
    rewrite (Split_single _ Hsp). repeat split.
  - intros idToken Htok Hbad. unfold handleSuccessorRequest. run.
    rewrite (index_Some _ _ _ _ Htok).
    destruct (Go.Atoi idToken) as [id ok]. simpl in Hbad. subst ok. reflexivity.
Qed.





Lemma keepsPeer_bind {A B} (c : M E A) (f : A -> M E B) :
  keepsPeer c -> (forall a, keepsPeer (f a)) -> keepsPeer (c ≫= f).
Proof.
  intros Hc Hf m. unfold mbind, M_bind. specialize (Hc m).
  destruct (c m) as [[a|cr] m1]; simpl in *.
  - rewrite Hf. exact Hc.
  - exact Hc.
Qed.

Lemma keepsPeer_ret {A} (a : A) : keepsPeer (mret a : M E A).
Proof. intros m. reflexivity. Qed.

Lemma keepsPeer_emit ev : keepsPeer (emit ev : M E unit).
Proof. intros m. reflexivity. Qed.

Lemma keepsPeer_fatal {A} : keepsPeer (fatal : M E A).
Proof. intros m. reflexivity. Qed.

Lemma keepsPeer_index tokens i : keepsPeer (index tokens i : M E string).
Proof. intros m. unfold index. destruct (tokens !! i); reflexivity. Qed.

Lemma keepsPeer_connectToPeer a : keepsPeer (connectToPeer a).
Proof. intros m. unfold connectToPeer. destruct (connect _ _); reflexivity. Qed.

Lemma keepsPeer_peerWrite conn data : keepsPeer (peerWrite conn data).
Proof. intros m. unfold peerWrite. destruct (exchange _ _ _). reflexivity. Qed.

Lemma keepsPeer_getPeer : keepsPeer (getPeer : M E peer).
Proof. intros m. reflexivity. Qed.

Lemma keepsPeer_getEnv : keepsPeer (getEnv : M E E).
Proof. intros m. reflexivity. Qed.

Lemma keepsPeer_storeFile fileName peerAddr : keepsPeer (storeFile fileName peerAddr).
Proof.
  unfold storeFile.
  apply keepsPeer_bind; [apply keepsPeer_connectToPeer|intros conn].
  apply keepsPeer_bind; [apply keepsPeer_getPeer|intros p].
  destruct (blobs p !! fileName); [|apply keepsPeer_fatal].
  apply keepsPeer_bind; [apply keepsPeer_peerWrite|intros reply].
  destruct (Go.ReadString reply) as [[line rest] ok].
  destruct (extractServerResponse line) as [respType respMsg].
  destruct (negb _); apply keepsPeer_emit.
Qed.

Lemma keepsPeer_sendUpdateRequest a b c : keepsPeer (sendUpdateRequest a b c).
Proof.
  unfold sendUpdateRequest.
  apply keepsPeer_bind; [apply keepsPeer_connectToPeer|intros conn].
  apply keepsPeer_bind; [apply keepsPeer_peerWrite|intros reply].
  apply keepsPeer_ret.
Qed.

Lemma keepsPeer_sendSuccessorRequest id a : keepsPeer (sendSuccessorRequest id a).
Proof.
  unfold sendSuccessorRequest.
  apply keepsPeer_bind; [apply keepsPeer_connectToPeer|intros conn].
  apply keepsPeer_bind; [apply keepsPeer_peerWrite|intros reply].
  destruct (Go.ReadString reply) as [[line rest] ok].
  destruct ok; [apply keepsPeer_ret|apply keepsPeer_fatal].
Qed.

Lemma keepsPeer_sendJoinRequest a b : keepsPeer (sendJoinRequest a b).
Proof.
  unfold sendJoinRequest.
  apply keepsPeer_bind; [apply keepsPeer_connectToPeer|intros conn].
  apply keepsPeer_bind; [apply keepsPeer_peerWrite|intros reply].
  destruct (Go.ReadString reply) as [[line rest] ok].
  destruct ok; [|apply keepsPeer_fatal].
  apply keepsPeer_bind; [apply keepsPeer_index|intros t0].
  apply keepsPeer_bind; [apply keepsPeer_index|intros t1].
  apply keepsPeer_ret.
Qed.

Lemma keepsPeer_findSuccessor id : keepsPeer (findSuccessor id).
Proof.
  unfold findSuccessor.
  apply keepsPeer_bind; [apply keepsPeer_getPeer|intros p].
  repeat match goal with
  | |- keepsPeer (if ?b then _ else _) => destruct b
  end; try apply keepsPeer_ret. apply keepsPeer_sendSuccessorRequest.
Qed.

Lemma keepsPeer_storeFiles names peerAddr : keepsPeer (storeFiles names peerAddr).
Proof.
  induction names as [|name rest IH]; simpl; [apply keepsPeer_ret|].
  apply keepsPeer_bind; [apply keepsPeer_storeFile|intros _]. exact IH.
Qed.

Lemma keepsPeer_handleRetrieveRequest request :
  keepsPeer (handleRetrieveRequest request : M E unit).
Proof.
  unfold handleRetrieveRequest.
  apply keepsPeer_bind; [apply keepsPeer_index|intros fileName].
  apply keepsPeer_bind; [apply keepsPeer_getPeer|intros p].
  destruct (storedFiles p !! fileName); [|apply keepsPeer_emit].
  destruct (blobs p !! fileName); [|apply keepsPeer_emit].
  repeat (apply keepsPeer_bind; [apply keepsPeer_emit|intros _]).
  apply keepsPeer_emit.
Qed.

Lemma keepsPeer_handleSuccessorRequest request :
  keepsPeer (handleSuccessorRequest request).
Proof.
  unfold handleSuccessorRequest.
  apply keepsPeer_bind; [apply keepsPeer_index|intros tok].
  destruct (Go.Atoi tok) as [id ok]. destruct ok; [|apply keepsPeer_fatal].
  apply keepsPeer_bind; [apply keepsPeer_findSuccessor|intros answer].
  apply keepsPeer_emit.
Qed.

Lemma keepsOk_bind {A B} (c : M E A) (f : A -> M E B) :
  keepsOk c -> (forall a, keepsOk (f a)) -> keepsOk (c ≫= f).
Proof.
  intros Hc Hf m Hok. unfold mbind, M_bind. specialize (Hc m Hok).
  destruct (c m) as [[a|cr] m1]; simpl in *.
  - destruct Hc as [Hok1 Hself1]. destruct (Hf a m1 Hok1) as [Hok2 Hself2].
    split; [assumption|congruence].
  - exact Hc.
Qed.

Lemma keepsPeer_keepsOk {A} (c : M E A) : keepsPeer c -> keepsOk c.
Proof. intros Hc m Hok. rewrite Hc. split; [assumption|reflexivity]. Qed.

Lemma keepsOk_modify (f : peer -> peer) :
  (forall p, peerOk p -> peerOk (f p) /\ self (f p) = self p) ->
  keepsOk (modifyPeer f : M E unit).
Proof. intros Hf m Hok. simpl. apply Hf, Hok. Qed.

Lemma slotOk_hashed addr : slotOk (mkNode addr (hsh addr)).
Proof. right. reflexivity. Qed.

Lemma slotOk_newNode : slotOk newNode.
Proof. left. reflexivity. Qed.

Lemma keysHashed_delete name files : keysHashed files -> keysHashed (delete name files).
Proof.
  intros Hk name' k Hlook. apply lookup_delete_Some in Hlook as [_ Hlook].
  eapply Hk, Hlook.
Qed.

Lemma keysHashed_insert name files :
  keysHashed files -> keysHashed (<[name := hsh name]> files).
Proof.
  intros Hk name' k Hlook.
  apply lookup_insert_Some in Hlook as [[<- <-]|[_ Hlook]]; [reflexivity|].
  eapply Hk, Hlook.
Qed.

Lemma keepsOk_transferFiles names addr : keepsOk (transferFiles names addr).
Proof.
  induction names as [|name rest IH]; simpl.
  - apply keepsPeer_keepsOk, keepsPeer_ret.
  - apply keepsOk_bind; [apply keepsPeer_keepsOk, keepsPeer_storeFile|intros _].
    apply keepsOk_bind.
    { apply keepsOk_modify. intros p Hok. split; [exact Hok|reflexivity]. }
    intros _. apply keepsOk_bind; [|intros _; exact IH].
    apply keepsOk_modify. intros p (Hs & Hp & Hk).
    split; [|reflexivity]. split; [exact Hs|]. split; [exact Hp|].
    apply keysHashed_delete, Hk.
Qed.

Lemma keepsOk_moveFilesToNewNode addr id : keepsOk (moveFilesToNewNode addr id).
Proof.
  unfold moveFilesToNewNode.
  apply keepsOk_bind; [apply keepsPeer_keepsOk, keepsPeer_getPeer|intros p].
  apply keepsOk_bind; [apply keepsPeer_keepsOk, keepsPeer_getEnv|intros e].
  apply keepsOk_transferFiles.
Qed.

Lemma keepsOk_set_successor addr :
  keepsOk (modifyPeer (set_successor (mkNode addr (hsh addr))) : M E unit).
Proof.
  apply keepsOk_modify. intros p (Hs & Hp & Hk). split; [|reflexivity].
  split; [apply slotOk_hashed|]. split; assumption.
Qed.

Lemma keepsOk_set_predecessor addr :
  keepsOk (modifyPeer (set_predecessor (mkNode addr (hsh addr))) : M E unit).
Proof.
  apply keepsOk_modify. intros p (Hs & Hp & Hk). split; [|reflexivity].
  split; [assumption|]. split; [apply slotOk_hashed|assumption].
Qed.

Lemma peerOk_updateSlot_successor a p :
  peerOk p -> peerOk (updateSlot set_successor a p) /\
              self (updateSlot set_successor a p) = self p.
Proof.
  intros (Hs & Hp & Hk). unfold updateSlot.
  destruct (negb _); [|repeat split; assumption].
  destruct (String.eqb _ _); (split; [|reflexivity]).
  - split; [apply slotOk_newNode|]. split; [apply slotOk_newNode|assumption].
  - split; [apply slotOk_hashed|]. split; assumption.
Qed.

Lemma peerOk_updateSlot_predecessor a p :
  peerOk p -> peerOk (updateSlot set_predecessor a p) /\
              self (updateSlot set_predecessor a p) = self p.
Proof.
  intros (Hs & Hp & Hk). unfold updateSlot.
  destruct (negb _); [|repeat split; assumption].
  destruct (String.eqb _ _); (split; [|reflexivity]).
  - split; [apply slotOk_newNode|]. split; [apply slotOk_newNode|assumption].
  - split; [assumption|]. split; [apply slotOk_hashed|assumption].
Qed.

Lemma keepsOk_handleUpdateRequest request :
  keepsOk (handleUpdateRequest request : M E unit).
Proof.
  unfold handleUpdateRequest.
  apply keepsOk_bind; [apply keepsPeer_keepsOk, keepsPeer_index|intros a].
  apply keepsOk_bind; [apply keepsPeer_keepsOk, keepsPeer_index|intros b].
  apply keepsOk_bind; [|intros _].
  - apply keepsOk_modify, peerOk_updateSlot_successor.
  - apply keepsOk_modify, peerOk_updateSlot_predecessor.
Qed.

Lemma keepsOk_handleStoreRequest request input :
  keepsOk (handleStoreRequest request input).
Proof.
  unfold handleStoreRequest.
  apply keepsOk_bind; [apply keepsPeer_keepsOk, keepsPeer_index|intros fileName].
  apply keepsOk_bind; [apply keepsPeer_keepsOk, keepsPeer_index|intros sizeToken].
  apply keepsOk_bind; [apply keepsPeer_keepsOk, keepsPeer_getEnv|intros e].
  destruct (negb _); [apply keepsPeer_keepsOk, keepsPeer_emit|].
  apply keepsOk_bind.
  { apply keepsOk_modify. intros p Hok. split; [exact Hok|reflexivity]. }
  intros _.
  apply keepsOk_bind; [apply keepsPeer_keepsOk, keepsPeer_emit|intros _].
  destruct (_ <? _).
  - apply keepsOk_bind; [|intros _; apply keepsPeer_keepsOk, keepsPeer_emit].
    apply keepsOk_modify. intros p Hok. split; [exact Hok|reflexivity].
  - apply keepsOk_bind.
    { apply keepsOk_modify. intros p Hok. split; [exact Hok|reflexivity]. }
    intros _.
    apply keepsOk_bind; [|intros _; apply keepsPeer_keepsOk, keepsPeer_emit].
    apply keepsOk_modify. intros p (Hs & Hp & Hk). split; [|reflexivity].
    split; [exact Hs|]. split; [exact Hp|]. apply keysHashed_insert, Hk.
Qed.

Lemma keepsOk_handleJoinRequest request : keepsOk (handleJoinRequest request).
Proof.
  unfold handleJoinRequest.
  apply keepsOk_bind; [apply keepsPeer_keepsOk, keepsPeer_index|intros newNodeAddr].
  apply keepsOk_bind; [apply keepsPeer_keepsOk, keepsPeer_getPeer|intros p].
  destruct (_ =? _); [apply keepsPeer_keepsOk, keepsPeer_emit|].
  destruct (_ && _).
  - apply keepsOk_bind; [apply keepsOk_moveFilesToNewNode|intros _].
    apply keepsOk_bind; [apply keepsPeer_keepsOk, keepsPeer_emit|intros _].
    apply keepsOk_bind; [apply keepsOk_set_successor|intros _].
    apply keepsOk_set_predecessor.
  - apply keepsOk_bind; [apply keepsPeer_keepsOk, keepsPeer_findSuccessor|intros addr].
    destruct (String.eqb _ _).
    + apply keepsOk_bind; [apply keepsPeer_keepsOk, keepsPeer_emit|intros _].
      apply keepsOk_bind;
        [apply keepsPeer_keepsOk, keepsPeer_sendUpdateRequest|intros _].
      apply keepsOk_bind; [apply keepsOk_moveFilesToNewNode|intros _].
      apply keepsOk_set_predecessor.
    + apply keepsOk_bind;
        [apply keepsPeer_keepsOk, keepsPeer_sendJoinRequest|intros [s pr]].
      apply keepsPeer_keepsOk, keepsPeer_emit.
Qed.

Lemma keepsOk_handleRequest input : keepsOk (handleRequest input).
Proof.
  unfold handleRequest.
  destruct (Go.ReadString input) as [[line rest] ok].
  repeat match goal with
  | |- keepsOk (if ?b then _ else _) => destruct b
  end.
  - apply keepsOk_handleJoinRequest.
  - apply keepsPeer_keepsOk, keepsPeer_handleSuccessorRequest.
  - apply keepsOk_handleUpdateRequest.
  - apply keepsOk_handleStoreRequest.
  - apply keepsPeer_keepsOk, keepsPeer_handleRetrieveRequest.
  - apply keepsPeer_keepsOk, keepsPeer_ret.
Qed.

Lemma keepsOk_joinRing initiator : keepsOk (joinRing initiator).
Proof.
  unfold joinRing.
  apply keepsOk_bind; [apply keepsPeer_keepsOk, keepsPeer_getPeer|intros p].
  apply keepsOk_bind;
    [apply keepsPeer_keepsOk, keepsPeer_sendJoinRequest|intros [s pr]].
  apply keepsOk_bind; [apply keepsOk_set_successor|intros _].
  apply keepsOk_set_predecessor.
Qed.

Lemma keepsOk_leaveRing : keepsOk leaveRing.
Proof.
  unfold leaveRing.
  apply keepsOk_bind; [apply keepsPeer_keepsOk, keepsPeer_getPeer|intros p].
  destruct (_ || _); [apply keepsPeer_keepsOk, keepsPeer_ret|].
  apply keepsOk_bind; [apply keepsPeer_keepsOk, keepsPeer_sendUpdateRequest|intros _].
  apply keepsOk_bind; [apply keepsPeer_keepsOk, keepsPeer_sendUpdateRequest|intros _].
  apply keepsOk_bind; [apply keepsPeer_keepsOk, keepsPeer_getEnv|intros e].
  apply keepsOk_bind; [apply keepsPeer_keepsOk, keepsPeer_storeFiles|intros _].
  apply keepsOk_bind.
  { apply keepsOk_modify. intros q Hok. split; [exact Hok|reflexivity]. }
  intros _. apply keepsOk_bind; [apply keepsOk_modify|intros _; apply keepsOk_modify].
  - intros q (Hs & Hp & Hk). split; [|reflexivity].
    split; [apply slotOk_newNode|]. split; assumption.
  - intros q (Hs & Hp & Hk). split; [|reflexivity].
    split; [assumption|]. split; [apply slotOk_newNode|assumption].
Qed.

(** X2: every request the dispatcher handles, [joinRing] and [leaveRing]
    keep the following true of the peer, whatever their outcome (crashes
    included): each neighbor slot is unset or holds an address together
    with the hash of that address, every registered file is registered
    under the hash of its name, and [self] is unchanged. *)
Theorem peerOk_invariant (m : machine E) :
  peerOk (m_peer m) ->
  (forall input,
     peerOk (m_peer (snd (handleRequest input m))) /\
     self (m_peer (snd (handleRequest input m))) = self (m_peer m)) /\
  (forall initiator,
     peerOk (m_peer (snd (joinRing initiator m))) /\
     self (m_peer (snd (joinRing initiator m))) = self (m_peer m)) /\
  (peerOk (m_peer (snd (leaveRing m))) /\
   self (m_peer (snd (leaveRing m))) = self (m_peer m)).
Proof.
  intros Hok. split; [|split].
  - intros input. apply keepsOk_handleRequest, Hok.
  - intros initiator. apply keepsOk_joinRing, Hok.
  - apply keepsOk_leaveRing, Hok.
Qed.

(** Under the invariant, a slot whose id is -1 is the unset slot. *)
Lemma slotOk_unset n : slotOk n -> (ID n =? -1) = true -> n = newNode.
Proof.
  intros [->|Hid] Hunset; [reflexivity|].
  apply Z.eqb_eq in Hunset. pose proof (hsh_from_range Fnv.New32a (Address n)) as Hr.
  unfold hsh in Hid. unfold ringCapacity in Hr. lia.
Qed.



(** The dispatcher on the line [sendSuccessorRequest] writes. *)
Lemma handleRequest_succ_line (id : Z) (m : machine E) :
  GoInt.in_range id ->
  handleRequest ("SUCC " ++ Go.Itoa id ++ Go.nl) m =
    (answer ← findSuccessor id; emit (ConnWrite (answer ++ Go.nl))) m.
Proof.
  intros Hid. unfold handleRequest.
  pose proof (Itoa_token id) as Htok.
  pose proof (isToken_inv _ Htok) as [Hne Hns].
  set (line := ("SUCC " ++ Go.Itoa id)%string).
  assert (Hline : ("SUCC " ++ Go.Itoa id ++ Go.nl)%string =
                  (line ++ Go.nl ++ EmptyString)%string).
  { subst line. rewrite !append_assoc. reflexivity. }
  rewrite Hline, ReadString_app_nl.
  2:{ subst line. apply contains_token_line; [reflexivity|].
      apply noSpace_no_nl, Hns. }
  assert (Htrim : Go.TrimSpace (line ++ Go.nl) = line).
  { subst line. apply (TrimSpace_line "S" "UCC " (Go.Itoa id)); [reflexivity|exact Htok]. }
  rewrite Htrim.
  change (Go.HasPrefix line "JOIN") with false.
  change (Go.HasPrefix line "SUCC") with true.
  cbv iota. unfold handleSuccessorRequest.
  assert (Hsplit : Go.Split line = ["SUCC"%string; Go.Itoa id]).
  { subst line.
    change (Go.Split ("SUCC" ++ String Go.sp_char (Go.Itoa id)) =
            ["SUCC"%string; Go.Itoa id]).
    rewrite Split_app_space by reflexivity.
    rewrite Split_single; [reflexivity|]. apply noSpace_no_sp, Hns. }
  rewrite Hsplit. run. rewrite (Atoi_Itoa id Hid). reflexivity.
Qed.

(** X9: the line [sendSuccessorRequest] writes for an id is read back by
    the dispatcher as that id: handling [SUCC <id>] is running
    [findSuccessor(id)] and writing its answer followed by a line feed. *)
Theorem succ_wire_roundtrip (id : Z) (m : machine E) :
  GoInt.in_range id ->
  handleRequest ("SUCC " ++ Go.Itoa id ++ Go.nl) m =
    (answer ← findSuccessor id; emit (ConnWrite (answer ++ Go.nl))) m.
Proof. apply handleRequest_succ_line. Qed.

(** X13: [connectToPeer] trims the address, so the line feed that a
    forwarded [findSuccessor] answer carries does no harm: for an address
    without white space, dialling (and hence sending a JOIN, a SUCC or a
    STORE to) the address followed by a line feed is the same as dialling
    the address itself. *)
Theorem forwarded_address_dials (addr : string) (m : machine E) :
  Go.isToken addr = true ->
  connectToPeer (addr ++ Go.nl) m = connectToPeer addr m /\
  connectToPeer addr m =
    (if connect (m_env m) addr then Ok addr else Crashed Fatal, m) /\
  (forall newNodeAddr,
     sendJoinRequest newNodeAddr (addr ++ Go.nl) m = sendJoinRequest newNodeAddr addr m) /\
  (forall id,
     sendSuccessorRequest id (addr ++ Go.nl) m = sendSuccessorRequest id addr m) /\
  (forall fileName, storeFile fileName (addr ++ Go.nl) m = storeFile fileName addr m).
Proof.
  intros Htok. destruct (TrimSpace_token_nl _ Htok) as [Hnl Hid].
  assert (Hc : forall m', connectToPeer (addr ++ Go.nl) m' = connectToPeer addr m').
  { intros m'. unfold connectToPeer. rewrite Hnl, Hid. reflexivity. }
  split; [apply Hc|]. split.
  { unfold connectToPeer. rewrite Hid. destruct (connect _ _); reflexivity. }
  split; [|split].
  - intros newNodeAddr. unfold sendJoinRequest. run. rewrite Hc. reflexivity.
  - intros id. unfold sendSuccessorRequest. run. rewrite Hc. reflexivity.
  - intros fileName. unfold storeFile. run. rewrite Hc. reflexivity.
Qed.

Lemma sendJoinRequest_run newNodeAddr address reply e' answer rest s pr (m : machine E) :
  let conn := Go.TrimSpace address in
  let request := ("JOIN " ++ newNodeAddr ++ Go.nl)%string in
  connect (m_env m) conn = true ->
  exchange (m_env m) conn request = (reply, e') ->
  Go.ReadString reply = (answer, rest, true) ->
  Go.Split (Go.TrimSpace answer) !! 0%nat = Some s ->
  Go.Split (Go.TrimSpace answer) !! 1%nat = Some pr ->
  sendJoinRequest newNodeAddr address m =
    (Ok (s, pr), mkMachine (m_peer m) e' (m_trace m ++ [PeerWrite conn request])).
Proof.
  intros conn request Hconn Hex Hread Hs Hpr.
  unfold sendJoinRequest, connectToPeer, peerWrite, index. run.
  fold conn. rewrite Hconn. simpl. fold request. rewrite Hex. simpl.
  rewrite Hread. rewrite Hs, Hpr. reflexivity.
Qed.

(** What [sendJoinRequest] does when no complete answer comes back. *)
Lemma sendJoinRequest_fails newNodeAddr address reply e' (m : machine E) :
  let conn := Go.TrimSpace address in
  let request := ("JOIN " ++ newNodeAddr ++ Go.nl)%string in
  connect (m_env m) conn = true ->
  exchange (m_env m) conn request = (reply, e') ->
  (Go.contains Go.nl_char reply = false ->
   sendJoinRequest newNodeAddr address m =
     (Crashed Fatal, mkMachine (m_peer m) e' (m_trace m ++ [PeerWrite conn request]))) /\
  (forall answer rest,
     Go.ReadString reply = (answer, rest, true) ->
     Go.contains Go.sp_char (Go.TrimSpace answer) = false ->
     sendJoinRequest newNodeAddr address m =
       (Crashed Panic, mkMachine (m_peer m) e' (m_trace m ++ [PeerWrite conn request]))).
Proof.
  intros conn request Hconn Hex. split.
  - intros Hnl.
    unfold sendJoinRequest, connectToPeer, peerWrite, index. run.
    fold conn. rewrite Hconn. simpl. fold request. rewrite Hex. simpl.
    destruct (Go.ReadString reply) as [[line rest] ok] eqn:Hread.
    destruct ok; [|reflexivity].
    destruct (ReadString_line _ _ _ Hread) as (body & -> & _ & ->).
    rewrite !contains_app in Hnl. simpl in Hnl.
    rewrite orb_true_r in Hnl. discriminate.
  - intros answer rest Hread Hsp.
    unfold sendJoinRequest, connectToPeer, peerWrite, index. run.
    fold conn. rewrite Hconn. simpl. fold request. rewrite Hex. simpl.
    rewrite Hread. rewrite (Split_single _ Hsp). reflexivity.
Qed.

(** X18: when the initiator answers [<succ> <pred>], [joinRing] writes
    [JOIN <self.Address>] to it and binds the successor slot to
    [(succ, hsh(succ))] and the predecessor slot to [(pred, hsh(pred))];
    neither id is the [-1] of an unset slot. *)
Theorem joinRing_binds_neighbors
    (initiator reply answer rest s pr : string) (e' : E) (m : machine E) :
  let p := m_peer m in
  let conn := Go.TrimSpace initiator in
  let request := ("JOIN " ++ Address (self p) ++ Go.nl)%string in
  connect (m_env m) conn = true ->
  exchange (m_env m) conn request = (reply, e') ->
  Go.ReadString reply = (answer, rest, true) ->
  Go.Split (Go.TrimSpace answer) !! 0%nat = Some s ->
  Go.Split (Go.TrimSpace answer) !! 1%nat = Some pr ->
  joinRing initiator m =
    (Ok tt,
     mkMachine (set_predecessor (mkNode pr (hsh pr)) (set_successor (mkNode s (hsh s)) p))
       e' (m_trace m ++ [PeerWrite conn request])) /\
  hsh s <> -1 /\ hsh pr <> -1.
Proof.
  intros p conn request Hconn Hex Hread Hs Hpr. split.
  - unfold joinRing, mbind, M_bind, getPeer. cbv beta iota. fold p.
    rewrite (sendJoinRequest_run _ _ _ _ _ _ _ _ _ Hconn Hex Hread Hs Hpr).
    reflexivity.
  - pose proof (hsh_from_range Fnv.New32a s) as H1.
    pose proof (hsh_from_range Fnv.New32a pr) as H2.
    unfold hsh, ringCapacity in *. lia.
Qed.

(** X19: [joinRing] does not survive a missing answer: when the initiator
    sends back no complete line (as after a self-collision, where it only
    closes the connection) the process exits through [log.Fatalln]; when
    the line holds a single token it panics.  The neighbor slots are
    untouched in both cases. *)
Theorem joinRing_without_answer (initiator reply : string) (e' : E) (m : machine E) :
  let p := m_peer m in
  let conn := Go.TrimSpace initiator in
  let request := ("JOIN " ++ Address (self p) ++ Go.nl)%string in
  connect (m_env m) conn = true ->
  exchange (m_env m) conn request = (reply, e') ->
  (Go.contains Go.nl_char reply = false ->
   joinRing initiator m =
     (Crashed Fatal, mkMachine p e' (m_trace m ++ [PeerWrite conn request]))) /\
  (forall answer rest,
     Go.ReadString reply = (answer, rest, true) ->
     Go.contains Go.sp_char (Go.TrimSpace answer) = false ->
     joinRing initiator m =
       (Crashed Panic, mkMachine p e' (m_trace m ++ [PeerWrite conn request]))).
Proof.
  intros p conn request Hconn Hex.
  destruct (sendJoinRequest_fails (Address (self p)) initiator reply e' m Hconn Hex)
    as [Hfatal Hpanic].
  split.
  - intros Hnl. unfold joinRing, mbind, M_bind, getPeer. cbv beta iota. fold p.
    rewrite (Hfatal Hnl). reflexivity.
  - intros answer rest Hread Hsp.
    unfold joinRing, mbind, M_bind, getPeer. cbv beta iota. fold p.
    rewrite (Hpanic answer rest Hread Hsp). reflexivity.
Qed.




Lemma deleteAll_filter newNodeID selfID (e : E) (sf : gmap string Z) :
  deleteAll (collectTransfers newNodeID selfID (range_order e sf)) sf =
  filter (fun kv => between newNodeID kv.2 selfID = true) sf.
Proof.
  apply map_eq. intros name. rewrite lookup_deleteAll.
  destruct (decide (name ∈ collectTransfers newNodeID selfID (range_order e sf)))
    as [Hin|Hin].
  - apply collectTransfers_range in Hin as (k & Hk & Hb). symmetry.
    apply map_lookup_filter_None. right. intros k' Hk'. simpl.
    rewrite Hk in Hk'. injection Hk' as <-. rewrite Hb. discriminate.
  - destruct (sf !! name) as [k|] eqn:Hk.
    + symmetry. apply map_lookup_filter_Some. split; [assumption|]. simpl.
      destruct (between newNodeID k selfID) eqn:Hb; [reflexivity|].
      exfalso. apply Hin, collectTransfers_range. exists k. split; assumption.
    + symmetry. apply map_lookup_filter_None. left. assumption.
Qed.




Lemma sendUpdateRequest_run a b peerAddr (m : machine E) :
  let conn := Go.TrimSpace peerAddr in
  let request := ("UPDATE " ++ a ++ " " ++ b ++ Go.nl)%string in
  connect (m_env m) conn = true ->
  sendUpdateRequest a b peerAddr m =
    (Ok tt, mkMachine (m_peer m) (snd (exchange (m_env m) conn request))
              (m_trace m ++ [PeerWrite conn request])).
Proof.
  intros conn request Hconn.
  unfold sendUpdateRequest, connectToPeer, peerWrite. run. fold conn.
  rewrite Hconn. simpl. fold request.
  destruct (exchange (m_env m) conn request). reflexivity.
Qed.




(** The dispatcher on an UPDATE line that keeps the successor and names a
    predecessor. *)
Lemma handleRequest_keep_update (newAddr : string) (m : machine E) :
  Go.isToken newAddr = true ->
  handleRequest ("UPDATE KEEP " ++ newAddr ++ Go.nl) m =
    (Ok tt, mkMachine (updateSlot set_predecessor newAddr (m_peer m))
              (m_env m) (m_trace m)).
Proof.
  intros Htok. pose proof (isToken_inv _ Htok) as [Hne Hns].
  unfold handleRequest.
  set (line := ("UPDATE KEEP " ++ newAddr)%string).
  assert (Hline : ("UPDATE KEEP " ++ newAddr ++ Go.nl)%string =
                  (line ++ Go.nl ++ EmptyString)%string).
  { subst line. rewrite !append_assoc. reflexivity. }
  rewrite Hline, ReadString_app_nl.
  2:{ subst line. apply contains_token_line; [reflexivity|]. apply noSpace_no_nl, Hns. }
  assert (Htrim : Go.TrimSpace (line ++ Go.nl) = line).
  { subst line. apply (TrimSpace_line "U" "PDATE KEEP " newAddr); [reflexivity|exact Htok]. }
  rewrite Htrim.
  assert (Hsplit : Go.Split line = ["UPDATE"; "KEEP"; newAddr]%string).
  { subst line.
    change (Go.Split ("UPDATE" ++ String Go.sp_char ("KEEP" ++ String Go.sp_char newAddr)) =
            ["UPDATE"; "KEEP"; newAddr]%string).
    rewrite !Split_app_space by reflexivity.
    rewrite Split_single; [reflexivity|]. apply noSpace_no_sp, Hns. }
  change (Go.HasPrefix line "JOIN") with false.
  change (Go.HasPrefix line "SUCC") with false.
  change (Go.HasPrefix line "UPDATE") with true.
  cbv iota. unfold handleUpdateRequest. rewrite Hsplit. reflexivity.
Qed.

(** X22: in a ring of two peers the leaving peer names the remaining peer
    in both UPDATE lines.  A peer that handles [UPDATE KEEP <own address>]
    and then [UPDATE <own address> KEEP] has both neighbor slots unset
    after the first line already, and from then on [findSuccessor] answers
    its own address for every id. *)
Theorem last_peer_becomes_alone (m : machine E) :
  let p := m_peer m in
  let own := Address (self p) in
  Go.isToken own = true ->
  own <> "KEEP"%string ->
  let m1 := snd (handleRequest ("UPDATE KEEP " ++ own ++ Go.nl) m) in
  let m2 := snd (handleRequest ("UPDATE " ++ own ++ " KEEP" ++ Go.nl) m1) in
  m1 = mkMachine (cleared p) (m_env m) (m_trace m) /\
  m2 = mkMachine (cleared p) (m_env m) (m_trace m) /\
  forall id, findSuccessor id m2 = (Ok own, m2).
Proof.
  intros p own Htok Hkeep m1 m2.
  pose proof (isToken_inv _ Htok) as [Hne Hns].
  assert (H1 : m1 = mkMachine (cleared p) (m_env m) (m_trace m)).
  { subst m1. rewrite (handleRequest_keep_update own m Htok). simpl.
    fold p. rewrite updateSlot_clear; [reflexivity|exact Hkeep|reflexivity]. }
  assert (H2 : m2 = mkMachine (cleared p) (m_env m) (m_trace m)).
  { subst m2. rewrite H1.
    rewrite handleRequest_update_keep;
      [|apply noSpace_no_sp, Hns|apply noSpace_no_nl, Hns].
    simpl. rewrite updateSlot_clear; [reflexivity|exact Hkeep|reflexivity]. }
  split; [exact H1|]. split; [exact H2|].
  intros id. rewrite H2. reflexivity.
Qed.

(** X11: a peer whose predecessor and successor carry the same id (a ring
    of two peers) answers every lookup for an id of the ring itself,
    without dialling: its own address for an id in the arc from the other
    peer to itself, the other peer's address otherwise. *)
Theorem two_peer_lookup_is_local (id : Z) (m : machine E) :
  let p := m_peer m in
  let a := ID (self p) in
  let b := ID (successor p) in
  ID (predecessor p) = b ->
  0 <= a < ringCapacity -> 0 <= b < ringCapacity -> 0 <= id < ringCapacity ->
  findSuccessor id m =
    (Ok (if between b id a || (id =? a) then Address (self p)
         else Address (successor p)), m).
Proof.
  intros p a b Hpred Ha Hb Hid.
  rewrite findSuccessor_eq. fold p. rewrite Hpred. fold a b.
  assert (Hnot : (b =? -1) = false) by (apply Z.eqb_neq; lia).
  rewrite Hnot. simpl.
  destruct (between b id a || (id =? a)) eqn:Hmine; [reflexivity|].
  apply orb_false_elim in Hmine as [Hbt Hne].
  assert (Hnext : between a id b || (id =? b) = true).
  { destruct (Z.eqb_spec id b) as [->|Hidb]; [apply orb_true_r|].
    rewrite orb_false_r. apply Z.eqb_neq in Hne.
    rewrite !between_on_ring in * by assumption.
    repeat match goal with
    | H : context [?x =? ?y] |- _ => destruct (Z.eqb_spec x y)
    | H : context [?x <? ?y] |- _ => destruct (Z.ltb_spec x y)
    | |- context [?x =? ?y] => destruct (Z.eqb_spec x y)
    | |- context [?x <? ?y] => destruct (Z.ltb_spec x y)
    end; simpl in *; try reflexivity; try discriminate; lia. }
  rewrite Hnext. reflexivity.
Qed.


(** X6: the bytes [storeFile] puts on the wire for a file (the STORE line,
    then the file) make the dispatcher that receives them store exactly
    that file under that name, register it under the hash of the name, and
    answer OK twice. *)
Theorem store_wire_roundtrip (fileName data : string) (m : machine E) :
  Go.isToken fileName = true ->
  creatable (m_env m) fileName = true ->
  Z.of_nat (String.length data) <= GoInt.max_int ->
  handleRequest (storeRequest fileName (Z.of_nat (String.length data)) ++ data) m =
    (Ok tt,
     mkMachine (stored fileName data (m_peer m)) (m_env m)
       (m_trace m ++ [ConnWrite ("OK" ++ Go.nl); ConnWrite ("OK" ++ Go.nl)])).
Proof.
  intros Htok Hcreate Hlen.
  pose proof (isToken_inv _ Htok) as [Hne Hns].
  set (size := Z.of_nat (String.length data)).
  pose proof (Itoa_token size) as Hstok.
  pose proof (isToken_inv _ Hstok) as [Hsne Hsns].
  unfold handleRequest, storeRequest.
  set (line := ("STORE " ++ fileName ++ " " ++ Go.Itoa size)%string).
  assert (Hline : (("STORE " ++ fileName ++ " " ++ Go.Itoa size ++ Go.nl) ++ data)%string =
                  (line ++ Go.nl ++ data)%string).
  { subst line. rewrite !append_assoc. reflexivity. }
  rewrite Hline, ReadString_app_nl.
  2:{ subst line. apply contains_token_line; [reflexivity|].
      apply contains_token_line; [apply noSpace_no_nl, Hns|].
      apply contains_token_line; [reflexivity|apply noSpace_no_nl, Hsns]. }
  assert (Htrim : Go.TrimSpace (line ++ Go.nl) = line).
  { subst line.
    replace ("STORE " ++ fileName ++ " " ++ Go.Itoa size)%string
      with (String "S" (("TORE " ++ fileName ++ " ") ++ Go.Itoa size))
      by (rewrite !append_assoc; reflexivity).
    apply TrimSpace_line; [reflexivity|exact Hstok]. }
  rewrite Htrim.
  assert (Hsplit : Go.Split line = ["STORE"%string; fileName; Go.Itoa size]).
  { subst line.
    change (Go.Split ("STORE" ++ String Go.sp_char
                        (fileName ++ String Go.sp_char (Go.Itoa size))) =
            ["STORE"%string; fileName; Go.Itoa size]).
    rewrite Split_app_space by reflexivity.
    rewrite Split_app_space by (apply noSpace_no_sp, Hns).
    rewrite Split_single; [reflexivity|]. apply noSpace_no_sp, Hsns. }
  change (Go.HasPrefix line "JOIN") with false.
  change (Go.HasPrefix line "SUCC") with false.
  change (Go.HasPrefix line "UPDATE") with false.
  change (Go.HasPrefix line "STORE") with true.
  cbv iota.
  assert (Hatoi : Go.Atoi (Go.Itoa size) = (size, true)).
  { apply Atoi_Itoa. unfold GoInt.in_range, GoInt.min_int, GoInt.max_int in *.
    subst size. lia. }
  rewrite (handleStoreRequest_ok line data fileName (Go.Itoa size) m).
  - rewrite Hatoi. simpl. subst size. rewrite Nat2Z.id, take_all. reflexivity.
  - rewrite Hsplit. reflexivity.
  - rewrite Hsplit. reflexivity.
  - exact Hcreate.
  - rewrite Hatoi. simpl. subst size. lia.
Qed.

(** X10: [findSuccessor], [sendSuccessorRequest] and the SUCC handler never
    change the peer, whether they succeed or crash. *)
Theorem lookups_keep_peer (m : machine E) :
  (forall id, m_peer (snd (findSuccessor id m)) = m_peer m) /\
  (forall request, m_peer (snd (handleSuccessorRequest request m)) = m_peer m) /\
  (forall id peerAddr, m_peer (snd (sendSuccessorRequest id peerAddr m)) = m_peer m).
Proof.
  split; [|split].
  - intros id. apply keepsPeer_findSuccessor.
  - intros request. apply keepsPeer_handleSuccessorRequest.
  - intros id peerAddr. apply keepsPeer_sendSuccessorRequest.
Qed.

(** *** Peers that can be dialled *)

Section Reliable.

Variable Inv : E -> Prop.
Hypothesis Inv_step : forall e addr request, Inv e -> Inv (snd (exchange e addr request)).


(** One [storeFile] toward a peer that can be dialled: the request line,
    then either the file's bytes or, when the first line of the answer is
    not OK, a line on standard output. *)
Lemma storeFile_any fileName peerAddr data (m : machine E) :
  let conn := Go.TrimSpace peerAddr in
  let request := storeRequest fileName (Z.of_nat (String.length data)) in
  Inv (m_env m) ->
  connect (m_env m) conn = true ->
  blobs (m_peer m) !! fileName = Some data ->
  exists ev,
    storeFile fileName peerAddr m =
      (Ok tt, mkMachine (m_peer m) (snd (exchange (m_env m) conn request))
                (m_trace m ++ [PeerWrite conn request; ev])) /\
    Inv (snd (exchange (m_env m) conn request)) /\
    ((accepted (fst (exchange (m_env m) conn request)) /\ ev = PeerCopy conn data) \/
     (~ accepted (fst (exchange (m_env m) conn request)) /\ exists line, ev = Stdout line)).
Proof.
  intros conn request Hinv Hconn Hblob.
  pose proof (Inv_step _ conn request Hinv) as Hinv'.
  unfold storeFile, connectToPeer, peerWrite, accepted. run. fold conn.
  rewrite Hconn. simpl. rewrite Hblob. fold request.
  destruct (exchange (m_env m) conn request) as [reply e']. simpl in *.
  destruct (Go.ReadString reply) as [[line rest] ok]. simpl.
  destruct (extractServerResponse line) as [respType respMsg]. simpl.
  destruct (String.eqb_spec respType "OK") as [->|Hne]; simpl.
  - eexists. split; [rewrite <- app_assoc; reflexivity|].
    split; [assumption|]. left. split; reflexivity.
  - eexists. split; [rewrite <- app_assoc; reflexivity|].
    split; [assumption|]. right. split; [assumption|]. eauto.
Qed.


(** The second loop of [moveFilesToNewNode], whatever the new peer answers. *)
Lemma transferFiles_any (newNodeAddr : string) (names : list string) :
  forall m : machine E,
  let conn := Go.TrimSpace newNodeAddr in
  NoDup names ->
  Inv (m_env m) ->
  (forall e, Inv e -> connect e conn = true) ->
  (forall name, name ∈ names -> is_Some (blobs (m_peer m) !! name)) ->
  exists e' tr,
    Inv e' /\
    transferFiles names newNodeAddr m =
      (Ok tt,
       mkMachine
         (mkPeer (self (m_peer m)) (successor (m_peer m)) (predecessor (m_peer m))
            (deleteAll names (storedFiles (m_peer m)))
            (deleteAll names (blobs (m_peer m))))
         e' (m_trace m ++ tr)) /\
    peerWrites tr = concat (map (storeLine conn (blobs (m_peer m))) names) /\
    ((forall e fileName size,
        Inv e -> ~ accepted (fst (exchange e conn (storeRequest fileName size)))) ->
     peerCopies tr = []).
Proof.
  induction names as [|name rest IH]; intros m conn Hnd Hinv Hconn Hblobs;
    subst conn; try (cbv zeta in IH).
  - exists (m_env m), []. split; [assumption|]. split; [|split; reflexivity].
    simpl. rewrite app_nil_r. destruct m as [[] ? ?]. reflexivity.
  - apply NoDup_cons in Hnd as [Hnotin Hnd].
    destruct (Hblobs name) as [data Hdata]; [left|].
    destruct (storeFile_any name newNodeAddr data m Hinv (Hconn _ Hinv) Hdata)
      as (ev & Hrun & Hinv1 & Hev).
    simpl. unfold mbind, M_bind. rewrite Hrun. simpl.
    match goal with |- context [transferFiles rest newNodeAddr ?m1] =>
      destruct (IH m1) as (e2 & tr & Hinv2 & Hrest & Hwrites & Hcopies) end.
    + exact Hnd.
    + exact Hinv1.
    + exact Hconn.
    + simpl. intros name' Hin. rewrite lookup_delete_ne.
      * apply Hblobs. right. exact Hin.
      * intros ->. contradiction.
    + exists e2. eexists. split; [exact Hinv2|]. split; [|split].
      * rewrite Hrest. simpl. rewrite <- app_assoc. reflexivity.
      * assert (Hline : storeLine (Go.TrimSpace newNodeAddr) (blobs (m_peer m)) name =
                  [(Go.TrimSpace newNodeAddr,
                    storeRequest name (Z.of_nat (String.length data)))])
          by (unfold storeLine; rewrite Hdata; reflexivity).
        rewrite peerWrites_app, Hwrites. simpl. rewrite Hline.
        assert (Hmap :
          map (storeLine (Go.TrimSpace newNodeAddr) (delete name (blobs (m_peer m)))) rest =
          map (storeLine (Go.TrimSpace newNodeAddr) (blobs (m_peer m))) rest).
        { apply map_ext_in. intros name' Hin%list_elem_of_In.
          unfold storeLine. rewrite lookup_delete_ne; [reflexivity|].
          intros ->. contradiction. }
        rewrite Hmap.
        destruct Hev as [[_ ->]|[_ [line ->]]]; reflexivity.
      * intros Hrefuse. rewrite peerCopies_app, (Hcopies Hrefuse).
        destruct Hev as [[Hacc _]|[_ [line ->]]]; [|reflexivity].
        exfalso. eapply Hrefuse; [exact Hinv|exact Hacc].
Qed.

(** X17: [moveFilesToNewNode] does not look at the outcome of [storeFile]:
    when the new peer answers every STORE line with something other than
    OK, no file byte is sent, and yet every file whose key fails the
    [between] test is asked for once and then removed, blob and entry. *)
Theorem handoff_refused (newNodeAddr : string) (newNodeID : Z) (m : machine E) :
  let p := m_peer m in
  let conn := Go.TrimSpace newNodeAddr in
  Inv (m_env m) ->
  (forall e, Inv e -> connect e conn = true) ->
  (forall e fileName size,
     Inv e -> ~ accepted (fst (exchange e conn (storeRequest fileName size)))) ->
  (forall name k, storedFiles p !! name = Some k -> is_Some (blobs p !! name)) ->
  exists e' tr p',
    moveFilesToNewNode newNodeAddr newNodeID m = (Ok tt, mkMachine p' e' (m_trace m ++ tr)) /\
    peerCopies tr = [] /\
    storedFiles p' =
      filter (fun kv => between newNodeID kv.2 (ID (self p)) = true) (storedFiles p) /\
    (forall name k, storedFiles p !! name = Some k ->
       between newNodeID k (ID (self p)) = false ->
       blobs p' !! name = None /\
       exists size, (conn, storeRequest name size) ∈ peerWrites tr).
Proof.
  intros p conn Hinv Hconn Hrefuse Hblobs.
  set (names := collectTransfers newNodeID (ID (self p))
                  (range_order (m_env m) (storedFiles p))).
  destruct (transferFiles_any newNodeAddr names m) as (e' & tr & _ & Hrun & Hw & Hc).
  - apply collectTransfers_NoDup.
  - exact Hinv.
  - exact Hconn.
  - intros name (k & Hk & _)%collectTransfers_range. eapply Hblobs, Hk.
  - exists e', tr. eexists. split.
    { unfold moveFilesToNewNode. run. exact Hrun. }
    split; [apply Hc, Hrefuse|]. simpl. split; [apply deleteAll_filter|].
    intros name k Hk Hb.
    assert (Hin : name ∈ names) by (apply collectTransfers_range; eauto).
    split.
    + rewrite lookup_deleteAll. rewrite decide_True by exact Hin. reflexivity.
    + destruct (Hblobs name k Hk) as [data Hdata].
      exists (Z.of_nat (String.length data)). rewrite Hw.
      apply list_elem_of_In, in_concat.
      exists (storeLine conn (blobs p) name). split.
      * apply in_map, list_elem_of_In, Hin.
      * unfold storeLine. rewrite Hdata. left. reflexivity.
Qed.








(** [moveFilesToNewNode] toward a peer that can be dialled, whatever it
    answers. *)
Lemma moveFilesToNewNode_run (newNodeAddr : string) (newNodeID : Z) (m : machine E) :
  let p := m_peer m in
  let conn := Go.TrimSpace newNodeAddr in
  Inv (m_env m) ->
  (forall e, Inv e -> connect e conn = true) ->
  (forall name k, storedFiles p !! name = Some k -> is_Some (blobs p !! name)) ->
  exists e' names tr,
    Inv e' /\
    moveFilesToNewNode newNodeAddr newNodeID m =
      (Ok tt,
       mkMachine
         (mkPeer (self p) (successor p) (predecessor p)
            (filter (fun kv => between newNodeID kv.2 (ID (self p)) = true) (storedFiles p))
            (deleteAll names (blobs p)))
         e' (m_trace m ++ tr)) /\
    (forall name, name ∈ names <->
       exists k, storedFiles p !! name = Some k /\
                 between newNodeID k (ID (self p)) = false) /\
    peerWrites tr = concat (map (storeLine conn (blobs p)) names).
Proof.
  intros p conn Hinv Hconn Hblobs.
  set (names := collectTransfers newNodeID (ID (self p))
                  (range_order (m_env m) (storedFiles p))).
  destruct (transferFiles_any newNodeAddr names m)
    as (e' & tr & Hinv' & Hrun & Hw & _).
  - apply collectTransfers_NoDup.
  - exact Hinv.
  - exact Hconn.
  - intros name (k & Hk & _)%collectTransfers_range. eapply Hblobs, Hk.
  - exists e', names, tr. split; [exact Hinv'|]. split; [|split].
    + unfold moveFilesToNewNode, mbind, M_bind, getPeer, getEnv. cbv beta iota.
      fold p. fold names. rewrite Hrun. fold p.
      subst names. rewrite deleteAll_filter. reflexivity.
    + intros name. apply collectTransfers_range.
    + exact Hw.
Qed.

(** X14: a JOIN (no self-collision) at a peer that is alone first hands
    over the files whose key fails [between(newId, k, self.ID)], then
    answers [<self> <self>], and leaves the peer with both neighbor slots
    bound to [(newAddr, hsh(newAddr))]. *)
Theorem join_at_lone_peer (request newAddr : string) (m : machine E) :
  let p := m_peer m in
  let newcomer := mkNode newAddr (hsh newAddr) in
  let conn := Go.TrimSpace newAddr in
  Go.Split request !! 1%nat = Some newAddr ->
  ID (self p) <> hsh newAddr ->
  (ID (successor p) =? -1) && (ID (predecessor p) =? -1) = true ->
  Inv (m_env m) ->
  (forall e, Inv e -> connect e conn = true) ->
  (forall name k, storedFiles p !! name = Some k -> is_Some (blobs p !! name)) ->
  exists e' names tr,
    handleJoinRequest request m =
      (Ok tt,
       mkMachine
         (mkPeer (self p) newcomer newcomer
            (filter (fun kv => between (hsh newAddr) kv.2 (ID (self p)) = true)
               (storedFiles p))
            (deleteAll names (blobs p)))
         e'
         (m_trace m ++ tr ++
          [ConnWrite (Address (self p) ++ " " ++ Address (self p) ++ Go.nl)])) /\
    (forall name, name ∈ names <->
       exists k, storedFiles p !! name = Some k /\
                 between (hsh newAddr) k (ID (self p)) = false) /\
    peerWrites tr = concat (map (storeLine conn (blobs p)) names).
Proof.
  intros p newcomer conn Htok Hself Halone Hinv Hconn Hblobs.
  destruct (moveFilesToNewNode_run newAddr (hsh newAddr) m Hinv Hconn Hblobs)
    as (e' & names & tr & _ & Hrun & Hnames & Hw).
  exists e', names, tr. split; [|split; assumption].
  unfold handleJoinRequest, mbind, M_bind, getPeer. cbv beta iota.
  rewrite (index_Some _ _ _ _ Htok). cbv beta iota. fold p.
  apply Z.eqb_neq in Hself. rewrite Hself, Halone, Hrun.
  unfold emit, modifyPeer. simpl. rewrite <- app_assoc. reflexivity.
Qed.

(** X15: a JOIN served by the successor of the newcomer answers
    [<self> <old predecessor>], writes the UPDATE to the old predecessor,
    hands over the files whose key fails the [between] test, and ends
    with the predecessor slot bound to the newcomer; the successor slot is
    as before. *)
Theorem join_as_successor (request newAddr : string) (m m1 : machine E) :
  let p := m_peer m in
  let newcomer := mkNode newAddr (hsh newAddr) in
  let conn := Go.TrimSpace newAddr in
  let predConn := Go.TrimSpace (Address (predecessor p)) in
  Go.Split request !! 1%nat = Some newAddr ->
  ID (self p) <> hsh newAddr ->
  (ID (successor p) =? -1) && (ID (predecessor p) =? -1) = false ->
  findSuccessor (hsh newAddr) m = (Ok (Address (self p)), m1) ->
  Inv (m_env m1) ->
  (forall e, Inv e -> connect e conn = true) ->
  (forall e, Inv e -> connect e predConn = true) ->
  (forall name k, storedFiles p !! name = Some k -> is_Some (blobs p !! name)) ->
  exists e' names tr,
    handleJoinRequest request m =
      (Ok tt,
       mkMachine
         (mkPeer (self p) (successor p) newcomer
            (filter (fun kv => between (hsh newAddr) kv.2 (ID (self p)) = true)
               (storedFiles p))
            (deleteAll names (blobs p)))
         e'
         (m_trace m1 ++
          [ConnWrite (Address (self p) ++ " " ++ Address (predecessor p) ++ Go.nl);
           PeerWrite predConn ("UPDATE " ++ newAddr ++ " KEEP" ++ Go.nl)] ++ tr)) /\
    (forall name, name ∈ names <->
       exists k, storedFiles p !! name = Some k /\
                 between (hsh newAddr) k (ID (self p)) = false) /\
    peerWrites tr = concat (map (storeLine conn (blobs p)) names).
Proof.
  intros p newcomer conn predConn Htok Hself Halone Hfind Hinv Hconn Hpred Hblobs.
  assert (Hp1 : m_peer m1 = p).
  { pose proof (keepsPeer_findSuccessor (hsh newAddr) m) as Hk.
    rewrite Hfind in Hk. exact Hk. }
  set (update := ("UPDATE " ++ newAddr ++ " " ++ "KEEP" ++ Go.nl)%string).
  set (m2 := mkMachine p (m_env m1)
               (m_trace m1 ++
                [ConnWrite (Address (self p) ++ " " ++ Address (predecessor p) ++ Go.nl)])).
  set (m3 := mkMachine p (snd (exchange (m_env m1) predConn update))
               (m_trace m2 ++ [PeerWrite predConn update])).
  destruct (moveFilesToNewNode_run newAddr (hsh newAddr) m3)
    as (e' & names & tr & _ & Hrun & Hnames & Hw).
  { apply Inv_step, Hinv. }
  { exact Hconn. }
  { exact Hblobs. }
  exists e', names, tr. split; [|split; assumption].
  unfold handleJoinRequest, mbind, M_bind, getPeer. cbv beta iota.
  rewrite (index_Some _ _ _ _ Htok). cbv beta iota. fold p.
  apply Z.eqb_neq in Hself. rewrite Hself, Halone, Hfind, String.eqb_refl.
  unfold emit. cbv beta iota. rewrite Hp1. fold m2.
  rewrite (sendUpdateRequest_run newAddr "KEEP" (Address (predecessor p)) m2)
    by (apply Hpred, Hinv).
  cbv beta iota. fold predConn. fold update. simpl m_peer. simpl m_env.
  fold m3. rewrite Hrun. unfold modifyPeer. simpl.
  rewrite <- !app_assoc. reflexivity.
Qed.


End Reliable.

End MoreFacts.

(** ** Lookups in a ring *)

Lemma ringEnv_connect fuel (w : gmap string peer) addr p :
  w !! addr = Some p -> @connect _ (ringEnv fuel) w addr = true.
Proof.
  intros Hp. destruct fuel; simpl; rewrite Hp; apply bool_decide_eq_true; eauto.
Qed.

Lemma ringEnv_exchange fuel (w : gmap string peer) addr request p :
  w !! addr = Some p ->
  @exchange _ (ringEnv (S fuel)) w addr request =
    (replyBytes (m_trace (snd (@handleRequest _ (ringEnv fuel) request (mkMachine p w [])))),
     <[addr := m_peer (snd (@handleRequest _ (ringEnv fuel) request (mkMachine p w [])))]>
       (m_env (snd (@handleRequest _ (ringEnv fuel) request (mkMachine p w []))))).
Proof.
  intros Hp. simpl. rewrite Hp.
  destruct (@handleRequest _ (ringEnv fuel) request (mkMachine p w [])) as [r m'].
  reflexivity.
Qed.

Lemma ring_lookup_fuel (w : gmap string peer) (id : Z) :
  wellLinked w -> 0 <= id < ringCapacity ->
  forall fuel a p tr,
    w !! a = Some p ->
    clockwise p id < Z.of_nat fuel ->
    exists r tr',
      w !! Address (self r) = Some r /\
      ownsKey r id = true /\
      replyBytes tr' = EmptyString /\
      (@findSuccessor _ (ringEnv fuel) id (mkMachine p w tr) =
         (Ok (Address (self r)), mkMachine p w (tr ++ tr')) \/
       @findSuccessor _ (ringEnv fuel) id (mkMachine p w tr) =
         (Ok (Address (self r) ++ Go.nl)%string, mkMachine p w (tr ++ tr'))).
Proof.
  intros Hw Hid. induction fuel as [|fuel IH]; intros a p tr Hp Hdist.
  - unfold clockwise in Hdist.
    pose proof (Z.mod_pos_bound (id - ID (self p)) ringCapacity eq_refl). lia.
  - destruct (Hw a p Hp) as (Hself & Htok & Hrange & Hdistinct & s & Hs & Hss & Hsp).
    destruct (Hw _ s Hs) as (Hsself & Hstok & Hsrange & _).
    rewrite (@findSuccessor_eq _ (ringEnv (S fuel))). cbn [m_peer].
    assert (Hnot : (ID (successor p) =? -1) = false).
    { apply Z.eqb_neq. rewrite <- Hss. unfold ringCapacity in *. lia. }
    rewrite Hnot, andb_false_r.
    destruct (between (ID (predecessor p)) id (ID (self p)) || (id =? ID (self p)))
      eqn:Hmine.
    { exists p, []. rewrite Hself. split; [exact Hp|]. split; [exact Hmine|].
      split; [reflexivity|]. left. rewrite app_nil_r. reflexivity. }
    destruct (between (ID (self p)) id (ID (successor p)) || (id =? ID (successor p)))
      eqn:Hnext.
    { exists s, []. rewrite Hsself. split; [exact Hs|]. split.
      - unfold ownsKey. rewrite Hsp, Hss. exact Hnext.
      - split; [reflexivity|]. left. rewrite app_nil_r, <- Hss, Hsself. reflexivity. }
    (* forwarded *)
    assert (Hida : id <> ID (self p)).
    { apply orb_false_elim in Hmine as [_ Hne]. apply Z.eqb_neq, Hne. }
    assert (Hprog : clockwise s id < clockwise p id).
    { unfold clockwise. rewrite Hss. apply forward_progress; try assumption.
      rewrite <- Hss. exact Hsrange. }
    destruct (IH (Address (successor p)) s [] Hs) as (r & tr' & Hr & Hown & Hquiet & Hres);
      [lia|].
    destruct (TrimSpace_token_nl _ Hstok) as [_ Htrim].
    set (request := ("SUCC " ++ Go.Itoa id ++ Go.nl)%string).
    assert (Hinner : @handleRequest _ (ringEnv fuel) request (mkMachine s w []) =
              (Ok tt, mkMachine s w (tr' ++ [ConnWrite (Address (self r) ++ Go.nl)])) \/
            @handleRequest _ (ringEnv fuel) request (mkMachine s w []) =
              (Ok tt, mkMachine s w
                        (tr' ++ [ConnWrite ((Address (self r) ++ Go.nl) ++ Go.nl)]))).
    { subst request. rewrite (@handleRequest_succ_line _ (ringEnv fuel)).
      2:{ unfold GoInt.in_range, GoInt.min_int, GoInt.max_int, ringCapacity in *. lia. }
      unfold mbind, M_bind.
      destruct Hres as [Hres|Hres]; rewrite Hres; [left|right]; reflexivity. }
    assert (Hreply : exists rest,
      @exchange _ (ringEnv (S fuel)) w (Address (successor p)) request =
        ((Address (self r) ++ Go.nl ++ rest)%string, w)).
    { rewrite (ringEnv_exchange fuel w _ request s Hs).
      destruct Hinner as [Hinner|Hinner]; rewrite Hinner; simpl;
        rewrite replyBytes_app, Hquiet; simpl;
        rewrite (insert_id _ _ _ Hs).
      - exists EmptyString. rewrite !append_nil_r. reflexivity.
      - exists Go.nl. rewrite !append_nil_r, append_assoc. reflexivity. }
    destruct Hreply as [rest Hreply].
    exists r, [PeerWrite (Address (successor p)) request].
    split; [exact Hr|]. split; [exact Hown|]. split; [reflexivity|]. right.
    destruct (Hw _ r Hr) as (_ & Hrtok & _).
    pose proof (@sendSuccessorRequest_run _ (ringEnv (S fuel)) id (Address (successor p))
             (Address (self r) ++ Go.nl ++ rest)%string w
             (Address (self r) ++ Go.nl)%string rest (mkMachine p w tr)) as Hrun.
    cbv zeta in Hrun. rewrite Htrim in Hrun. cbn [m_env m_peer m_trace] in Hrun.
    apply Hrun.
    + apply (ringEnv_connect _ _ _ s Hs).
    + exact Hreply.
    + rewrite ReadString_app_nl; [reflexivity|].
      apply noSpace_no_nl. apply isToken_inv in Hrtok as [_ Hns]. exact Hns.
Qed.

(** X12: in a ring whose peers listen at their own addresses and whose
    successor and predecessor slots are linked both ways, a lookup started
    at any peer, for any id of the ring, comes back (forwarded from peer
    to peer as needed) with the address, possibly followed by a line
    feed, of a peer that takes the id for its own by the test of
    [findSuccessor]; no peer and no part of the ring changes. *)
Theorem ring_lookup_finds_owner (w : gmap string peer) (a : string) (p : peer)
    (id : Z) (tr : list event) (fuel : nat) :
  wellLinked w ->
  w !! a = Some p ->
  0 <= id < ringCapacity ->
  (127 <= fuel)%nat ->
  exists (answer : string) (r : peer) (tr' : list event),
    @findSuccessor _ (ringEnv fuel) id (mkMachine p w tr) =
      (Ok answer, mkMachine p w (tr ++ tr')) /\
    w !! Go.TrimSpace answer = Some r /\
    Address (self r) = Go.TrimSpace answer /\
    ownsKey r id = true.
Proof.
  intros Hw Hp Hid Hfuel.
  destruct (ring_lookup_fuel w id Hw Hid fuel a p tr Hp)
    as (r & tr' & Hr & Hown & _ & Hres).
  { unfold clockwise.
    pose proof (Z.mod_pos_bound (id - ID (self p)) ringCapacity eq_refl).
    unfold ringCapacity in *. lia. }
  destruct (Hw _ r Hr) as (_ & Hrtok & _).
  destruct (TrimSpace_token_nl _ Hrtok) as [Hnl Hbare].
  destruct Hres as [Hres|Hres].
  - exists (Address (self r)), r, tr'. rewrite Hbare. repeat split; assumption.
  - exists (Address (self r) ++ Go.nl)%string, r, tr'. rewrite Hnl.
    repeat split; assumption.
Qed.

(** ** The further properties at concrete peers *)

Lemma Demo_ring_wellLinked : wellLinked Demo.ring.
Proof.
  intros a p. unfold Demo.ring.
  intros [[<- <-]|[_ [[<- <-]|[_ [[<- <-]|[_ Hp]]%lookup_insert_Some]]%lookup_insert_Some]]%lookup_insert_Some.
  - split; [reflexivity|]. split; [reflexivity|]. split; [vm_compute; split; [discriminate|reflexivity]|].
    split; [vm_compute; discriminate|]. exists Demo.peerC. repeat split.
  - split; [reflexivity|]. split; [reflexivity|]. split; [vm_compute; split; [discriminate|reflexivity]|].
    split; [vm_compute; discriminate|]. exists Demo.peerB. repeat split.
  - split; [reflexivity|]. split; [reflexivity|]. split; [vm_compute; split; [discriminate|reflexivity]|].
    split; [vm_compute; discriminate|]. exists Demo.peerA. repeat split.
  - rewrite lookup_empty in Hp. discriminate.
Qed.

Lemma Demo_files_have_blobs (name : string) (k : Z) :
  Demo.files !! name = Some k -> is_Some (Demo.fileBlobs !! name).
Proof.
  unfold Demo.files, Demo.fileBlobs.
  intros [[<- _]|[_ [[<- _]|[_ Hk]]%lookup_insert_Some]]%lookup_insert_Some.
  - rewrite lookup_insert_eq. eauto.
  - rewrite lookup_insert_ne by discriminate. rewrite lookup_insert_eq. eauto.
  - rewrite lookup_empty in Hk. discriminate.
Qed.

Lemma Demo_peerA_ok : peerOk Demo.peerA.
Proof.
  split; [right; reflexivity|]. split; [right; reflexivity|].
  intros name k Hk. simpl in Hk. rewrite lookup_empty in Hk. discriminate.
Qed.

Lemma between_arcs_partition_witness :
  (100 <> 20 /\ 5 <> 100 /\ 5 <> 20) /\
  between 100 5 20 = negb (between 20 5 100).
Proof.
  split; [lia|].
  apply (between_arcs_partition 100 5 20); unfold ringCapacity; lia.
Defined.

Lemma peerOk_invariant_witness :
  peerOk (m_peer (snd (@handleRequest _ (ringEnv 2)
                         ("UPDATE 127.0.0.1:8005 KEEP" ++ Go.nl) Demo.atA))).
Proof.
  apply (proj1 (@peerOk_invariant _ (ringEnv 2) Demo.atA Demo_peerA_ok)).
Defined.

Lemma store_then_retrieve_witness :
  storedFiles (m_peer (snd (@handleStoreRequest _ (ringEnv 0)
                 "STORE hi 5" "hello" Demo.alone))) !! "hi"%string = Some (hsh "hi").
Proof.
  refine (proj2 (@store_then_retrieve _ (ringEnv 0) "STORE hi 5" "RETRIEVE hi"
            "hello" "hi" "5" Demo.alone _ _ _ _ _));
    try reflexivity; try (vm_compute; split; first [discriminate|reflexivity]).
Defined.

Lemma store_twice_witness :
  storedFiles (m_peer (snd (@handleStoreRequest _ (ringEnv 0) "STORE hi 3" "abc"
     (snd (@handleStoreRequest _ (ringEnv 0) "STORE hi 5" "hello" Demo.alone))))) =
  storedFiles (m_peer (snd (@handleStoreRequest _ (ringEnv 0) "STORE hi 5" "hello"
     Demo.alone))).
Proof.
  refine (proj1 (@store_twice _ (ringEnv 0) "STORE hi 5" "STORE hi 3" "hello" "abc"
            "hi" "5" "3" Demo.alone _ _ _ _ _ _ _));
    try reflexivity; try (vm_compute; discriminate).
Defined.

Lemma store_without_size_witness :
  @handleStoreRequest _ (ringEnv 0) "STORE hi abc" "hello" Demo.alone =
    (Ok tt,
     mkMachine (stored "hi" EmptyString (Demo.lonePeer ∅ ∅)) ∅
       [ConnWrite ("OK" ++ Go.nl); ConnWrite ("OK" ++ Go.nl)]).
Proof.
  refine (@store_without_size _ (ringEnv 0) "STORE hi abc" "hello" "hi" "abc"
            Demo.alone _ _ _ _); try reflexivity; try (vm_compute; discriminate).
Defined.

Lemma store_wire_roundtrip_witness :
  @handleRequest _ (ringEnv 0)
    (storeRequest "hi" (Z.of_nat (String.length "hello")) ++ "hello") Demo.alone =
    (Ok tt,
     mkMachine (stored "hi" "hello" (Demo.lonePeer ∅ ∅)) ∅
       [ConnWrite ("OK" ++ Go.nl); ConnWrite ("OK" ++ Go.nl)]).
Proof.
  refine (@store_wire_roundtrip _ (ringEnv 0) "hi" "hello" Demo.alone _ _ _);
    try reflexivity; try (vm_compute; discriminate).
Defined.

Lemma retrieve_only_reads_witness :
  @handleRetrieveRequest (gmap string peer) "RETRIEVE nope" Demo.alone =
    (Ok tt, mkMachine (Demo.lonePeer ∅ ∅) ∅
              [ConnWrite ("ERR File does not exist." ++ Go.nl)]).
Proof.
  refine (proj2 (proj2 (retrieve_only_reads "RETRIEVE nope" Demo.alone))
            "nope" _ _); [reflexivity|]. left. reflexivity.
Defined.

Lemma malformed_requests_crash_witness :
  @handleSuccessorRequest _ (ringEnv 2) "SUCC" Demo.atA = (Crashed Panic, Demo.atA) /\
  @handleSuccessorRequest _ (ringEnv 2) "SUCC abc" Demo.atA = (Crashed Fatal, Demo.atA).
Proof.
  split.
  - refine (proj1 (proj2 (proj1 (@malformed_requests_crash _ (ringEnv 2) "SUCC"
              Demo.atA) _))). reflexivity.
  - refine (proj2 (@malformed_requests_crash _ (ringEnv 2) "SUCC abc" Demo.atA)
              "abc" _ _); reflexivity.
Defined.

Lemma succ_wire_roundtrip_witness :
  @handleRequest _ (ringEnv 2) ("SUCC " ++ Go.Itoa 60 ++ Go.nl) Demo.atC =
    (answer ← @findSuccessor _ (ringEnv 2) 60; emit (ConnWrite (answer ++ Go.nl)))
      Demo.atC.
Proof.
  apply (@succ_wire_roundtrip _ (ringEnv 2) 60 Demo.atC).
  unfold GoInt.in_range, GoInt.min_int, GoInt.max_int. lia.
Defined.

Lemma two_peer_lookup_is_local_witness :
  @findSuccessor unit acceptingEnv 60 Scenario.pairA = (Ok Demo.addrA, Scenario.pairA).
Proof.
  refine (@two_peer_lookup_is_local unit acceptingEnv 60 Scenario.pairA _ _ _ _);
    try reflexivity; try (vm_compute; split; first [discriminate|reflexivity]).
Defined.

Lemma ring_lookup_finds_owner_witness :
  exists (answer : string) (r : peer) (tr' : list event),
    @findSuccessor _ (ringEnv 127) 60 Demo.atA =
      (Ok answer, mkMachine Demo.peerA Demo.ring ([] ++ tr')) /\
    Demo.ring !! Go.TrimSpace answer = Some r /\
    Address (self r) = Go.TrimSpace answer /\
    ownsKey r 60 = true.
Proof.
  apply (ring_lookup_finds_owner Demo.ring Demo.addrA Demo.peerA 60 [] 127
           Demo_ring_wellLinked).
  - reflexivity.
  - unfold ringCapacity. lia.
  - lia.
Defined.

Lemma forwarded_address_dials_witness :
  @connectToPeer _ (ringEnv 2) (Demo.addrB ++ Go.nl) Demo.atA =
  @connectToPeer _ (ringEnv 2) Demo.addrB Demo.atA.
Proof.
  apply (proj1 (@forwarded_address_dials _ (ringEnv 2) Demo.addrB Demo.atA eq_refl)).
Defined.

Lemma join_at_lone_peer_witness :
  exists e' names tr,
    @handleJoinRequest unit acceptingEnv "JOIN 127.0.0.1:8002" Demo.loneHolder =
      (Ok tt,
       mkMachine
         (mkPeer (Demo.nodeOf Demo.addrA) (Demo.nodeOf Demo.addrC) (Demo.nodeOf Demo.addrC)
            (filter (fun kv => between (hsh Demo.addrC) kv.2 (hsh Demo.addrA) = true)
               Demo.files)
            (deleteAll names Demo.fileBlobs))
         e'
         (tr ++ [ConnWrite (Demo.addrA ++ " " ++ Demo.addrA ++ Go.nl)])) /\
    peerWrites tr = concat (map (storeLine Demo.addrC Demo.fileBlobs) names).
Proof.
  destruct (@join_at_lone_peer unit acceptingEnv (fun _ => True) (fun _ _ _ _ => I)
              "JOIN 127.0.0.1:8002" Demo.addrC Demo.loneHolder)
    as (e' & names & tr & Hrun & _ & Hw).
  - reflexivity.
  - vm_compute. discriminate.
  - reflexivity.
  - exact I.
  - reflexivity.
  - exact Demo_files_have_blobs.
  - exists e', names, tr. split; [exact Hrun|exact Hw].
Defined.

Lemma join_as_successor_witness :
  exists e' names tr,
    predecessor (m_peer (snd (@handleJoinRequest unit acceptingEnv
                                "JOIN 127.0.0.1:8005" Scenario.holderC))) =
      Demo.nodeOf Demo.addrN /\
    @handleJoinRequest unit acceptingEnv "JOIN 127.0.0.1:8005" Scenario.holderC =
      (Ok tt,
       mkMachine
         (mkPeer (Demo.nodeOf Demo.addrC) (Demo.nodeOf Demo.addrB) (Demo.nodeOf Demo.addrN)
            (filter (fun kv => between (hsh Demo.addrN) kv.2 (hsh Demo.addrC) = true)
               Demo.files)
            (deleteAll names Demo.fileBlobs))
         e'
         ([ConnWrite (Demo.addrC ++ " " ++ Demo.addrA ++ Go.nl);
           PeerWrite Demo.addrA ("UPDATE 127.0.0.1:8005 KEEP" ++ Go.nl)] ++ tr)).
Proof.
  destruct (@join_as_successor unit acceptingEnv (fun _ => True) (fun _ _ _ _ => I)
              "JOIN 127.0.0.1:8005" Demo.addrN Scenario.holderC Scenario.holderC)
    as (e' & names & tr & Hrun & _ & _).
  - reflexivity.
  - vm_compute. discriminate.
  - reflexivity.
  - reflexivity.
  - exact I.
  - reflexivity.
  - reflexivity.
  - exact Demo_files_have_blobs.
  - exists e', names, tr. split; [rewrite Hrun; reflexivity|exact Hrun].
Defined.


Lemma handoff_refused_witness :
  exists e' tr p',
    @moveFilesToNewNode unit refusingEnv Demo.addrC (hsh Demo.addrC) Demo.loneHolder =
      (Ok tt, mkMachine p' e' tr) /\
    peerCopies tr = [] /\
    blobs p' !! "main.go"%string = None.
Proof.
  destruct (@handoff_refused unit refusingEnv (fun _ => True) (fun _ _ _ _ => I)
              Demo.addrC (hsh Demo.addrC) Demo.loneHolder)
    as (e' & tr & p' & Hrun & Hc & _ & Hgone).
  - exact I.
  - reflexivity.
  - intros e fileName size _. vm_compute. discriminate.
  - exact Demo_files_have_blobs.
  - exists e', tr, p'. split; [exact Hrun|]. split; [exact Hc|].
    apply (Hgone "main.go"%string (hsh "main.go")); reflexivity.
Defined.

Lemma joinRing_binds_neighbors_witness :
  @joinRing _ (ringEnv 3) Demo.addrC Scenario.newcomer =
    (Ok tt,
     mkMachine
       (mkPeer (Demo.nodeOf Demo.addrN) (Demo.nodeOf Demo.addrC) (Demo.nodeOf Demo.addrA)
          ∅ ∅)
       (snd (@exchange _ (ringEnv 3) Demo.ring Demo.addrC ("JOIN 127.0.0.1:8005" ++ Go.nl)))
       [PeerWrite Demo.addrC ("JOIN 127.0.0.1:8005" ++ Go.nl)]).
Proof.
  refine (proj1 (@joinRing_binds_neighbors _ (ringEnv 3) Demo.addrC
            (fst (@exchange _ (ringEnv 3) Demo.ring Demo.addrC
                    ("JOIN 127.0.0.1:8005" ++ Go.nl)))
            (Demo.addrC ++ " " ++ Demo.addrA ++ Go.nl) EmptyString
            Demo.addrC Demo.addrA _ Scenario.newcomer _ _ _ _ _));
    try reflexivity; try apply surjective_pairing; try (vm_compute; reflexivity).
Defined.

Lemma joinRing_without_answer_witness :
  hsh Scenario.addrTwin = hsh Demo.addrA /\
  @joinRing _ (ringEnv 3) Demo.addrA Scenario.twin =
    (Crashed Fatal,
     mkMachine (m_peer Scenario.twin)
       (snd (@exchange _ (ringEnv 3) Demo.ring Demo.addrA ("JOIN 127.0.0.1:8062" ++ Go.nl)))
       [PeerWrite Demo.addrA ("JOIN 127.0.0.1:8062" ++ Go.nl)]).
Proof.
  split; [reflexivity|].
  refine (proj1 (@joinRing_without_answer _ (ringEnv 3) Demo.addrA
            (fst (@exchange _ (ringEnv 3) Demo.ring Demo.addrA
                    ("JOIN 127.0.0.1:8062" ++ Go.nl)))
            _ Scenario.twin _ _) _);
    try reflexivity; try apply surjective_pairing; try (vm_compute; reflexivity).
Defined.



Lemma last_peer_becomes_alone_witness :
  snd (@handleRequest _ (ringEnv 2) ("UPDATE KEEP " ++ Demo.addrA ++ Go.nl) Demo.atA) =
    mkMachine (cleared Demo.peerA) Demo.ring [].
Proof.
  refine (proj1 (@last_peer_becomes_alone _ (ringEnv 2) Demo.atA _ _));
    [reflexivity|discriminate].
Defined.
